(** * simplebot_minesweeper: the plugin's hooks, filter and commands

    A shallow embedding of [simplebot_minesweeper/__init__.py]: the message
    filter that turns two-character messages into moves, the commands
    [/mines_play] and [/mines_repeat], and the turn function [_run_turn]
    that decides what is persisted and what is answered.

    The two collaborators the module imports, [.db.DBManager] and
    [.game.Board], are described after the specification of the plugin;
    [Board] is an interface the handlers are generic in, and an engine
    following the specification implements it. *)

From Stdlib Require Import List ZArith NArith Bool Lia String Ascii.
From Stdlib Require Import DecimalString DecimalPos DecimalZ Sorted.
Import ListNotations.

Set Implicit Arguments.
Local Open Scope Z_scope.

(* ===================================================================== *)
(** * Python values *)
(* ===================================================================== *)

(** A Python [str] is a sequence of Unicode code points: [len] counts code
    points, and the predicates [isalpha], [isdigit], [isalnum] look at each
    one. *)
Definition codepoint := N.
Definition pystr := list codepoint.

(** An ASCII literal, as a [pystr]. *)
Definition lit (s : string) : pystr :=
  map N_of_ascii (list_ascii_of_string s).

(** The escape [\n]. *)
Definition nl : pystr := [10%N].

Definition pystr_eqb (s t : pystr) : bool :=
  if list_eq_dec N.eq_dec s t then true else false.

(** [str(n)] and ["{}".format(n)] for an [int]. *)
Definition str_of_int (n : Z) : pystr :=
  lit (NilZero.string_of_int (Z.to_int n)).

(** Truth value of an optional string: [None] and [""] are false. *)
Definition truthy (o : option pystr) : bool :=
  match o with
  | Some (_ :: _) => true
  | _ => false
  end.

(** ** Character classes

    CPython decides [isalpha], [isdecimal], [isdigit] and [isnumeric] from
    the Unicode character database.  On the ASCII range the classes are
    written out; above it they are taken from a table given as a
    parameter. *)
Class UnicodeTables := {
  uc_alpha : codepoint -> bool;
  uc_decimal : codepoint -> bool;
  uc_digit : codepoint -> bool;
  uc_numeric : codepoint -> bool
}.

Definition is_ascii (c : codepoint) : bool := (c <? 128)%N.

Definition ascii_letter (c : codepoint) : bool :=
  ((65 <=? c) && (c <=? 90) || (97 <=? c) && (c <=? 122))%N.

Definition ascii_digit (c : codepoint) : bool :=
  ((48 <=? c) && (c <=? 57))%N.

Section CharClasses.
Context {U : UnicodeTables}.

Definition c_isalpha (c : codepoint) : bool :=
  if is_ascii c then ascii_letter c else uc_alpha c.
Definition c_isdecimal (c : codepoint) : bool :=
  if is_ascii c then ascii_digit c else uc_decimal c.
Definition c_isdigit (c : codepoint) : bool :=
  if is_ascii c then ascii_digit c else uc_digit c.
Definition c_isnumeric (c : codepoint) : bool :=
  if is_ascii c then ascii_digit c else uc_numeric c.

(** [str.isalpha()]: at least one character, all of them alphabetic. *)
Definition isalpha (s : pystr) : bool :=
  negb (Nat.eqb (List.length s) 0) && forallb c_isalpha s.

(** [str.isdigit()]: at least one character, all of them digits. *)
Definition isdigit (s : pystr) : bool :=
  negb (Nat.eqb (List.length s) 0) && forallb c_isdigit s.

(** [str.isalnum()]: at least one character, and for each character [c]
    one of [c.isalpha()], [c.isdecimal()], [c.isdigit()],
    [c.isnumeric()]. *)
Definition c_isalnum (c : codepoint) : bool :=
  c_isalpha c || c_isdecimal c || c_isdigit c || c_isnumeric c.
Definition isalnum (s : pystr) : bool :=
  negb (Nat.eqb (List.length s) 0) && forallb c_isalnum s.
End CharClasses.

(** A table with nothing above ASCII: enough to run the handlers on ASCII
    messages, where the table is never consulted. *)
Definition ascii_only : UnicodeTables :=
  {| uc_alpha := fun _ => false; uc_decimal := fun _ => false;
     uc_digit := fun _ => false; uc_numeric := fun _ => false |}.

(** The entry of U+00BD, VULGAR FRACTION ONE HALF, alone: numeric, and
    neither a digit, a decimal nor a letter. *)
Definition one_half_only : UnicodeTables :=
  {| uc_alpha := fun _ => false; uc_decimal := fun _ => false;
     uc_digit := fun _ => false; uc_numeric := fun c => (c =? 0xbd)%N |}.

(** ** Exceptions *)

Inductive exn : Type :=
| ValueError
| AssertionError
| OtherException.

Inductive Res (A : Type) : Type :=
| Ok (a : A)
| Raise (e : exn).
Arguments Ok {A} a.
Arguments Raise {A} e.

Definition res_bind {A B} (r : Res A) (k : A -> Res B) : Res B :=
  match r with
  | Ok a => k a
  | Raise e => Raise e
  end.

(* ===================================================================== *)
(** * The storage collaborator, [DBManager] *)
(* ===================================================================== *)

Module db.

(** Modelled from the spec: db.py, the [DBManager] class, is not part of
    the sources.  A game record maps a player address to the current
    board serialization (nullable), the group chat and the high score;
    the nick registry maps an address to a nick. *)
Record Game := mkGame {
  addr : pystr;
  gid : Z;
  board : option pystr;
  score : Z
}.

(** The mutating calls a handler issues, in order. *)
Inductive Write : Type :=
| AddGame (a : pystr) (g : Z) (b : pystr)
| SetBoard (a : pystr) (b : option pystr)
| SetGame (a : pystr) (b : option pystr) (s : Z).

(** Modelled from the spec: [CreateGame(playerId, chatId, serializedBoard)]
    names no score, and the call in [mines_play] passes none: the high
    score a new record starts with is decided inside db.py.  It is kept
    as a parameter of the storage, [new_score], that no call changes. *)
Record DBManager := mkDB {
  games : list Game;
  nicks : list (pystr * pystr);
  journal : list Write;
  new_score : Z
}.

(** Modelled from the spec: [GetGameByChat(chatId)]. *)
Definition get_game_by_gid (d : DBManager) (g : Z) : option Game :=
  find (fun r => gid r =? g) (games d).

(** Modelled from the spec: [GetGameByPlayer(id)]. *)
Definition get_game_by_addr (d : DBManager) (a : pystr) : option Game :=
  find (fun r => pystr_eqb (addr r) a) (games d).

(** Modelled from the spec: [GetNick(addr)]. *)
Definition get_nick (d : DBManager) (a : pystr) : option pystr :=
  option_map snd (find (fun r => pystr_eqb (fst r) a) (nicks d)).

Definition update (a : pystr) (f : Game -> Game) (rows : list Game)
  : list Game :=
  map (fun r => if pystr_eqb (addr r) a then f r else r) rows.

(** Modelled from the spec: [SetBoard(playerId, serializedBoard|null)]. *)
Definition set_board (d : DBManager) (a : pystr) (b : option pystr)
  : DBManager :=
  {| games := update a (fun r => mkGame (addr r) (gid r) b (score r))
                     (games d);
     nicks := nicks d;
     journal := journal d ++ [SetBoard a b];
     new_score := new_score d |}.

(** Modelled from the spec:
    [SetGameResult(playerId, serializedBoard|null, score)]. *)
Definition set_game (d : DBManager) (a : pystr) (b : option pystr) (s : Z)
  : DBManager :=
  {| games := update a (fun r => mkGame (addr r) (gid r) b s) (games d);
     nicks := nicks d;
     journal := journal d ++ [SetGame a b s];
     new_score := new_score d |}.

(** Modelled from the spec: [CreateGame(playerId, chatId,
    serializedBoard)]; the record is added after the others, with the
    high score the storage gives a new record. *)
Definition add_game (d : DBManager) (a : pystr) (g : Z) (b : pystr)
  : DBManager :=
  {| games := games d ++ [mkGame a g (Some b) (new_score d)];
     nicks := nicks d;
     journal := journal d ++ [AddGame a g b];
     new_score := new_score d |}.

(** Modelled from the spec: [FindAddrByNick(nick)]. *)
Definition get_addr (d : DBManager) (n : pystr) : option pystr :=
  option_map fst (find (fun r => pystr_eqb (snd r) n) (nicks d)).

(** Modelled from the spec: [SetNick(addr, nick)]; the registry maps an
    address to its nick, so the nick of a known address is replaced.  The
    journal follows the calls on game records only. *)
Definition set_nick (d : DBManager) (a n : pystr) : DBManager :=
  {| games := games d;
     nicks := if existsb (fun r => pystr_eqb (fst r) a) (nicks d)
              then map (fun r => if pystr_eqb (fst r) a then (a, n) else r)
                       (nicks d)
              else nicks d ++ [(a, n)];
     journal := journal d;
     new_score := new_score d |}.

(** Modelled from the spec: [ListGames(limitOrAll)], the records ordered
    by score descending; records with the same score keep the order of
    the table. *)
Fixpoint insert_by_score (g : Game) (l : list Game) : list Game :=
  match l with
  | [] => [g]
  | x :: l' => if score x <=? score g then g :: l
               else x :: insert_by_score g l'
  end.

Definition by_score (l : list Game) : list Game :=
  fold_right insert_by_score [] l.

Definition get_games (d : DBManager) (limit : option nat) : list Game :=
  match limit with
  | Some n => firstn n (by_score (games d))
  | None => by_score (games d)
  end.

End db.

(* ===================================================================== *)
(** * The [Board] class, as the plugin uses it *)
(* ===================================================================== *)

(** game.py is not part of the sources; the handlers are written against
    the methods they call.  The constructor and [move] can raise, the
    queries are pure. *)
Class BoardAPI := {
  Board : Type;
  Time : Type;              (* what [time.time()] returns *)
  Rand : Type;              (* the random source a fresh board draws from *)
  Board_new : Rand -> Time -> Res Board;    (* [Board()] *)
  Board_load : pystr -> Res Board;          (* [Board(serialized)] *)
  move : Board -> pystr -> Res Board;       (* [b.move(text)] *)
  export : Board -> pystr;                  (* [b.export()] *)
  result : Board -> Z;                      (* [b.result()] *)
  get_score : Board -> Time -> Z;           (* [b.get_score(now)] *)
  reveal : Board -> Z -> pystr;             (* [b.reveal(result)] *)
  Board_str : Board -> pystr                (* [str(b)] *)
}.

(* ===================================================================== *)
(** * What a handler can touch *)
(* ===================================================================== *)

(** An incoming message: its text, the chat it arrived in and its sender
    ([message.get_sender_contact()]). *)
Record Message := mkMessage {
  text : pystr;
  chat_id : Z;
  sender_addr : pystr;
  sender_name : pystr
}.

(** One [replies.add(text=..., chat=...)]; without [chat] the reply goes to
    the chat of the message. *)
Record Reply := mkReply {
  reply_text : pystr;
  reply_chat : option Z
}.

(** A group made by [bot.create_group(title, members)]. *)
Record Group := mkGroup {
  group_id : Z;
  title : pystr;
  members : list pystr
}.

(** The global [db], the chats the bot created, the [replies] collected so
    far and what went to [bot.logger.exception]. *)
Record World := mkWorld {
  store : db.DBManager;
  groups : list Group;
  outbox : list Reply;
  logged : list exn
}.

(** A handler is a state transformer that can raise; the state reached
    when an exception is raised is kept, as the database calls made before
    it are not undone. *)
Definition M (A : Type) : Type := World -> Res A * World.

Definition ret {A} (a : A) : M A := fun w => (Ok a, w).

Definition bind {A B} (m : M A) (k : A -> M B) : M B :=
  fun w =>
    match m w with
    | (Ok a, w') => k a w'
    | (Raise e, w') => (Raise e, w')
    end.

Definition raise {A} (e : exn) : M A := fun w => (Raise e, w).

Definition lift {A} (r : Res A) : M A := fun w => (r, w).

(** [try: body except ValueError as err: handler(err)]. *)
Definition try_except_ValueError {A} (body : M A) (handler : exn -> M A)
  : M A :=
  fun w =>
    match body w with
    | (Raise ValueError, w') => handler ValueError w'
    | other => other
    end.

Declare Scope handler_scope.
Delimit Scope handler_scope with handler.
Notation "x <- m ;; k" := (bind m (fun x => k))
  (at level 61, m at next level, right associativity) : handler_scope.
Notation "m ;; k" := (bind m (fun _ => k))
  (at level 61, right associativity) : handler_scope.
Local Open Scope handler_scope.

Definition db_read {A} (f : db.DBManager -> A) : M A :=
  fun w => (Ok (f (store w)), w).

Definition db_write (f : db.DBManager -> db.DBManager) : M unit :=
  fun w => (Ok tt, mkWorld (f (store w)) (groups w) (outbox w) (logged w)).

(** [replies.add(text=t, chat=c)]. *)
Definition replies_add (t : pystr) (c : option Z) : M unit :=
  fun w => (Ok tt, mkWorld (store w) (groups w)
                           (outbox w ++ [mkReply t c]) (logged w)).

(** [bot.logger.exception(err)]. *)
Definition logger_exception (e : exn) : M unit :=
  fun w => (Ok tt, mkWorld (store w) (groups w) (outbox w)
                           (logged w ++ [e])).

(** [bot.create_group(name, contacts)]; the id of the new chat is chosen
    by the messenger core and given here as [new_id]. *)
Definition create_group (new_id : Z) (name : pystr) (contacts : list pystr)
  : M Z :=
  fun w => (Ok new_id, mkWorld (store w)
                               (groups w ++ [mkGroup new_id name contacts])
                               (outbox w) (logged w)).

(* ===================================================================== *)
(** * The handlers of [__init__.py] *)
(* ===================================================================== *)

Definition no_active_game : pystr :=
  lit "No active game, send /mines_play to start playing.".

Definition invalid_move : pystr := [0x274c%N] ++ lit " Invalid move!".

Definition need_nick : pystr :=
  lit "You need to set a nick before start playing,"
  ++ lit " send /mines_nick Your Nick".

Definition group_title : pystr := [0x1f4a3%N] ++ lit " Minesweeper".

Definition win_head : pystr :=
  [0x1f3c6%N] ++ lit " Game over. You Win!!!" ++ nl.

(** ["New High Score: {}\n📊 /mines_top".format(score)] *)
Definition high_score_text (score : Z) : pystr :=
  lit "New High Score: " ++ str_of_int score ++ nl
  ++ [0x1f4ca%N] ++ lit " /mines_top".

Definition died_text : pystr :=
  [0x2620%N; 0xfe0f%N] ++ lit " Game over. You died." ++ nl
  ++ [0x1f4ca%N] ++ lit " /mines_top".

(** ["\n\n{}\n▶️ Play again? /mines_play".format(render)] *)
Definition play_again (render : pystr) : pystr :=
  nl ++ nl ++ render ++ nl
  ++ [0x25b6%N; 0xfe0f%N] ++ lit " Play again? /mines_play".

Section Handlers.
Context {U : UnicodeTables} {B : BoardAPI}.

(** [_run_turn(gid)]; [now] is what [time.time()] returns when the
    winning branch reads the clock. *)
Definition _run_turn (now : Time) (gid : Z) : M pystr :=
  g <- db_read (fun d => db.get_game_by_gid d gid) ;;
  match g with
  | None => raise AssertionError
  | Some g =>
    if negb (truthy (db.board g)) then ret no_active_game
    else
      b <- lift (Board_load (match db.board g with
                             | Some s => s
                             | None => []
                             end)) ;;
      let result := result b in
      if result =? 1 then
        let score := get_score b now in
        let text := win_head in
        let score := if score <=? db.score g then db.score g + 1
                     else score in
        db_write (fun d => db.set_game d (db.addr g) None score) ;;
        let text := text ++ high_score_text score in
        ret (text ++ play_again (reveal b result))
      else if result =? -1 then
        db_write (fun d => db.set_board d (db.addr g) None) ;;
        let text := died_text in
        ret (text ++ play_again (reveal b result))
      else
        ret (Board_str b)
  end.

(** The guard of [filter_messages]: the message is dropped when it
    holds. *)
Definition not_a_move (t : pystr) : bool :=
  negb (Nat.eqb (List.length t) 2)
  || negb (isalnum t)
  || isalpha t
  || isdigit t.

(** [filter_messages(bot, message, replies)]. *)
Definition filter_messages (now : Time) (message : Message) : M unit :=
  if not_a_move (text message) then ret tt
  else
    game <- db_read (fun d => db.get_game_by_gid d (chat_id message)) ;;
    match game with
    | None => ret tt
    | Some game =>
      match db.board game with
      | None => ret tt
      | Some s =>
        try_except_ValueError
          (b <- lift (Board_load s) ;;
           b <- lift (move b (text message)) ;;
           db_write (fun d => db.set_board d (db.addr game)
                                           (Some (export b))) ;;
           t <- _run_turn now (chat_id message) ;;
           replies_add t None)
          (fun err =>
             logger_exception err ;;
             replies_add invalid_move None)
      end
    end.

(** [mines_play(bot, message, replies)]; [rnd] and [t0] are what the
    constructor [Board()] draws and reads, [new_id] the id of the group
    [bot.create_group] makes. *)
Definition mines_play (rnd : Rand) (t0 now : Time) (new_id : Z)
           (message : Message) : M unit :=
  nick <- db_read (fun d => db.get_nick d (sender_addr message)) ;;
  if negb (truthy nick) then replies_add need_nick None
  else
    game <- db_read (fun d => db.get_game_by_addr d (sender_addr message)) ;;
    match game with
    | None =>
      chat <- create_group new_id group_title [sender_addr message] ;;
      b <- lift (Board_new rnd t0) ;;
      db_write (fun d => db.add_game d (sender_addr message) chat
                                     (export b)) ;;
      let text := lit "Hello " ++ sender_name message
                  ++ lit ", in this group you can play Minesweeper."
                  ++ nl ++ nl in
      t <- _run_turn now chat ;;
      replies_add (text ++ t) (Some chat)
    | Some game =>
      b <- lift (Board_new rnd t0) ;;
      db_write (fun d => db.set_board d (db.addr game)
                                      (Some (export b))) ;;
      t <- _run_turn now (db.gid game) ;;
      replies_add (lit "Game started!" ++ nl ++ nl ++ t)
                  (Some (db.gid game))
    end.

(** [mines_repeat(bot, message, replies)]. *)
Definition mines_repeat (now : Time) (message : Message) : M unit :=
  game <- db_read (fun d => db.get_game_by_addr d (sender_addr message)) ;;
  match game with
  | Some game =>
    t <- _run_turn now (db.gid game) ;;
    replies_add t (Some (db.gid game))
  | None => replies_add no_active_game None
  end.

End Handlers.

(** ** Abbreviations used in the statements below *)

(** The score the winning branch of [_run_turn] hands to [db.set_game],
    from the score of the board and the stored high score. *)
Definition bumped (fresh old : Z) : Z :=
  if fresh <=? old then old + 1 else fresh.

(** The world after [db.set_board(game["addr"], s)]. *)
Definition stored (w : World) (r : db.Game) (s : pystr) : World :=
  mkWorld (db.set_board (store w) (db.addr r) (Some s))
          (groups w) (outbox w) (logged w).

(** The world after [replies.add(text=t, chat=c)]. *)
Definition answered (w : World) (t : pystr) (c : option Z) : World :=
  mkWorld (store w) (groups w) (outbox w ++ [mkReply t c]) (logged w).

(** Whether a storage call writes the score column. *)
Definition writes_score (c : db.Write) : bool :=
  match c with
  | db.SetGame _ _ _ => true
  | _ => false
  end.

(** The line that announces a score in the text of a won game. *)
Definition score_line_head : pystr := lit "New High Score: ".

(** [s.startswith(p)]. *)
Fixpoint startswith (p s : pystr) : bool :=
  match p, s with
  | [], _ => true
  | _ :: _, [] => false
  | a :: p', b :: s' => (a =? b)%N && startswith p' s'
  end.

(* ===================================================================== *)
(** * The board engine, [game.Board] *)
(* ===================================================================== *)

(** Reading a decimal number back from a string. *)
Fixpoint ascii_string (s : pystr) : option string :=
  match s with
  | [] => Some EmptyString
  | c :: s' =>
    if (c <? 256)%N then option_map (String (ascii_of_N c)) (ascii_string s')
    else None
  end.

(** [int(s)] for a plain decimal numeral. *)
Definition int_of_str (s : pystr) : option Z :=
  match ascii_string s with
  | Some t => option_map Z.of_int (NilZero.int_of_string t)
  | None => None
  end.

(** [s.split(sep)] for a one-character separator. *)
Fixpoint split_on (sep : codepoint) (s : pystr) : list pystr :=
  match s with
  | [] => [[]]
  | c :: s' =>
    if (c =? sep)%N then [] :: split_on sep s'
    else match split_on sep s' with
         | f :: fs => (c :: f) :: fs
         | [] => [[c]]
         end
  end.

(** A text without a line break. *)
Definition no_break (s : pystr) : Prop := ~ In 10%N s.

Module game.

Local Open Scope nat_scope.

(** Modelled from the spec: game.py is not part of the sources.  The
    data model of the board: a cell knows whether it is a mine, how many
    mines surround it and whether it is revealed; a board has its
    dimensions, its cells row by row, the number of mines and the
    timestamp of its creation. *)
Inductive CellState : Type := Hidden | Revealed.

Record Cell := mkCell {
  isMine : bool;
  adjacentMineCount : nat;
  state : CellState
}.

Record Board := mkBoard {
  width : nat;
  height : nat;
  cells : list Cell;
  mineCount : nat;
  startedAt : Z
}.

Inductive outcome : Type := InProgress | Won | Lost.

(** Modelled from the spec: the error taxonomy of the engine. *)
Inductive Error : Type :=
| InvalidConfiguration
| OutOfBounds
| InvalidToken
| CorruptState.

Inductive Result (A : Type) : Type :=
| Done (a : A)
| Fail (e : Error).
Arguments Done {A} a.
Arguments Fail {A} e.

Definition is_revealed (c : Cell) : bool :=
  match state c with Revealed => true | Hidden => false end.

(** The coordinates next to [n] on one axis, [n] included. *)
Definition around (n : nat) : list nat :=
  match n with
  | 0 => [0; 1]
  | S p => [p; n; S n]
  end.

(** Modelled from the spec: the up-to-8 grid neighbours of a cell,
    orthogonal and diagonal. *)
Definition neighbours (w h r c : nat) : list (nat * nat) :=
  filter (fun p => (fst p <? h) && (snd p <? w)
                   && negb ((fst p =? r) && (snd p =? c)))
         (list_prod (around r) (around c)).

Definition mine_at (mines : list nat) (w : nat) (p : nat * nat) : bool :=
  existsb (Nat.eqb (fst p * w + snd p)) mines.

Definition adjacent (mines : list nat) (w h r c : nat) : nat :=
  List.length (filter (mine_at mines w) (neighbours w h r c)).

(** Modelled from the spec: [k] mines among the free cells, no two on
    the same cell; each draw of the random source picks one of the cells
    still free. *)
Fixpoint place (k : nat) (free : list nat) (draws : list nat) : list nat :=
  match k with
  | 0 => []
  | S k' =>
    let p := nth (hd 0 draws mod List.length free) free 0 in
    p :: place k' (remove Nat.eq_dec p free) (tl draws)
  end.

(** Modelled from the spec: [Create(width, height, mineCount,
    randomSource)], with the clock reading that becomes [startedAt]. *)
Definition Create (w h m : nat) (draws : list nat) (now : Z)
  : Result Board :=
  if w * h <=? m then Fail InvalidConfiguration
  else
    let mines := place m (seq 0 (w * h)) draws in
    Done (mkBoard w h
            (map (fun i => mkCell (existsb (Nat.eqb i) mines)
                                  (adjacent mines w h (i / w) (i mod w))
                                  Hidden)
                 (seq 0 (w * h)))
            m now).

Definition cell_at (b : Board) (r c : nat) : option Cell :=
  if (r <? height b) && (c <? width b)
  then nth_error (cells b) (r * width b + c)
  else None.

Fixpoint reveal_nth (i : nat) (l : list Cell) : list Cell :=
  match l, i with
  | [], _ => []
  | x :: l', 0 => mkCell (isMine x) (adjacentMineCount x) Revealed :: l'
  | x :: l', S i' => x :: reveal_nth i' l'
  end.

Definition set_revealed (b : Board) (r c : nat) : Board :=
  mkBoard (width b) (height b)
          (reveal_nth (r * width b + c) (cells b))
          (mineCount b) (startedAt b).

(** Modelled from the spec: the cascade, with an explicit work list.  A
    hidden cell that is not a mine is revealed; when no mine surrounds
    it its neighbours join the work list.  Mines and revealed cells are
    skipped. *)
Fixpoint cascade (fuel : nat) (work : list (nat * nat)) (b : Board)
  : Board :=
  match fuel, work with
  | 0, _ => b
  | _, [] => b
  | S fuel', (r, c) :: rest =>
    match cell_at b r c with
    | None => cascade fuel' rest b
    | Some cl =>
      if isMine cl || is_revealed cl then cascade fuel' rest b
      else if adjacentMineCount cl =? 0
           then cascade fuel'
                        (neighbours (width b) (height b) r c ++ rest)
                        (set_revealed b r c)
           else cascade fuel' rest (set_revealed b r c)
    end
  end.

(** Modelled from the spec: [Reveal(row, col)].  The work list is given
    [9 * area + 1] steps: a step either drops an entry or opens a cell,
    and an opened cell adds at most eight entries. *)
Definition Reveal (b : Board) (r c : nat) : Result Board :=
  match cell_at b r c with
  | None => Fail OutOfBounds
  | Some cl =>
    if is_revealed cl then Done b
    else if isMine cl then Done (set_revealed b r c)
    else Done (cascade (9 * (width b * height b) + 1) [(r, c)] b)
  end.

(** Modelled from the spec: [Outcome()]; [Lost] takes precedence. *)
Definition Outcome (b : Board) : outcome :=
  if existsb (fun c => isMine c && is_revealed c) (cells b) then Lost
  else if forallb (fun c => isMine c || is_revealed c) (cells b) then Won
  else InProgress.

(** Modelled from the spec: [Score(now)], non-negative and
    non-increasing in the elapsed time; the ceiling is the tunable
    constant. *)
Definition score_ceiling : Z := 1000%Z.

Definition Score (b : Board) (now : Z) : Z :=
  Z.max 0 (score_ceiling - (now - startedAt b)).

Definition render_rows (b : Board) (glyph : option Cell -> pystr)
  : pystr :=
  List.concat (map (fun r =>
                 List.concat (map (fun c => glyph (cell_at b r c))
                             (seq 0 (width b))) ++ nl)
              (seq 0 (height b))).

(** Modelled from the spec: [RenderFull(outcome)], every mine and every
    count disclosed; the mine differs between a win and a loss. *)
Definition RenderFull (b : Board) (o : outcome) : pystr :=
  render_rows b
    (fun cl =>
       match cl with
       | None => []
       | Some cl =>
         if isMine cl
         then match o with Won => lit "F" | _ => lit "*" end
         else str_of_int (Z.of_nat (adjacentMineCount cl))
       end).

(** Modelled from the spec: [RenderCurrent()], a function of what is
    revealed only. *)
Definition RenderCurrent (b : Board) : pystr :=
  render_rows b
    (fun cl =>
       match cl with
       | None => []
       | Some cl =>
         if is_revealed cl
         then if isMine cl then lit "*"
              else str_of_int (Z.of_nat (adjacentMineCount cl))
         else lit "#"
       end).

(** ** Move tokens *)

(** The column a letter names, in either case. *)
Definition letter_index (c : codepoint) : option nat :=
  if ((65 <=? c) && (c <=? 90))%N then Some (N.to_nat (c - 65))
  else if ((97 <=? c) && (c <=? 122))%N then Some (N.to_nat (c - 97))
  else None.

(** The row a digit names; rows are counted from 1. *)
Definition digit_index (c : codepoint) : option nat :=
  if ((49 <=? c) && (c <=? 57))%N then Some (N.to_nat (c - 49))
  else None.

Definition on_grid (w h : nat) (rc : nat * nat) : Result (nat * nat) :=
  if (fst rc <? h) && (snd rc <? w) then Done rc else Fail InvalidToken.

(** Modelled from the spec: [Parse(token)]; one character is a letter
    and selects the column, the other is a digit and selects the row,
    in either order. *)
Definition Parse (w h : nat) (token : pystr) : Result (nat * nat) :=
  match token with
  | [a; d] =>
    match letter_index a, digit_index d with
    | Some c, Some r => on_grid w h (r, c)
    | _, _ =>
      match digit_index a, letter_index d with
      | Some r, Some c => on_grid w h (r, c)
      | _, _ => Fail InvalidToken
      end
    end
  | _ => Fail InvalidToken
  end.

(** ** Serialization *)

Definition format_version : pystr := lit "1".

Definition dec (n : nat) : pystr := str_of_int (Z.of_nat n).

Definition undec (s : pystr) : option nat :=
  match int_of_str s with
  | Some z => if (z <? 0)%Z then None else Some (Z.to_nat z)
  | None => None
  end.

(** A cell is two characters: [h] or [r] for a hidden or revealed cell,
    in upper case on a mine, and the digit of its count. *)
Definition cell_code (c : Cell) : pystr :=
  [ match isMine c, state c with
    | false, Hidden => 104%N
    | false, Revealed => 114%N
    | true, Hidden => 72%N
    | true, Revealed => 82%N
    end;
    (48 + N.of_nat (adjacentMineCount c))%N ].

Definition cell_decode (f d : codepoint) : option Cell :=
  if ((48 <=? d) && (d <=? 56))%N then
    let n := N.to_nat (d - 48) in
    if (f =? 104)%N then Some (mkCell false n Hidden)
    else if (f =? 114)%N then Some (mkCell false n Revealed)
    else if (f =? 72)%N then Some (mkCell true n Hidden)
    else if (f =? 82)%N then Some (mkCell true n Revealed)
    else None
  else None.

Fixpoint cells_decode (s : pystr) : option (list Cell) :=
  match s with
  | [] => Some []
  | f :: d :: rest =>
    match cell_decode f d, cells_decode rest with
    | Some c, Some cs => Some (c :: cs)
    | _, _ => None
    end
  | _ => None
  end.

(** Modelled from the spec: [Export()]; a version tag, the dimensions,
    the number of mines, the start timestamp and the cells, one per
    line. *)
Definition Export (b : Board) : pystr :=
  format_version ++ nl
  ++ dec (width b) ++ nl
  ++ dec (height b) ++ nl
  ++ dec (mineCount b) ++ nl
  ++ str_of_int (startedAt b) ++ nl
  ++ List.concat (map cell_code (cells b)).

(** Modelled from the spec: [Import(serialized)]; anything that is not
    an export is [CorruptState]. *)
Definition Import (s : pystr) : Result Board :=
  match split_on 10%N s with
  | [v; w; h; m; t; cs] =>
    if pystr_eqb v format_version then
      match undec w, undec h, undec m, int_of_str t, cells_decode cs with
      | Some w, Some h, Some m, Some t, Some cs =>
        if List.length cs =? w * h then Done (mkBoard w h cs m t)
        else Fail CorruptState
      | _, _, _, _, _ => Fail CorruptState
      end
    else Fail CorruptState
  | _ => Fail CorruptState
  end.

(** ** Boards the engine produces *)

(** A board has one cell per position, and no count exceeds the eight
    neighbours a cell can have. *)
Definition well_formed (b : Board) : Prop :=
  List.length (cells b) = width b * height b
  /\ Forall (fun c => adjacentMineCount c <= 8) (cells b).

(** The boards of a game: a created board and what moves make of it. *)
Inductive reachable : Board -> Prop :=
| reach_create w h m draws now b :
    Create w h m draws now = Done b -> reachable b
| reach_reveal b r c b' :
    reachable b -> Reveal b r c = Done b' -> reachable b'.

(** ** The class the plugin imports *)

(** A bad move is a [ValueError]; the other failures are not. *)
Definition to_exn (e : Error) : exn :=
  match e with
  | OutOfBounds | InvalidToken => ValueError
  | InvalidConfiguration | CorruptState => OtherException
  end.

Definition to_res {A} (r : Result A) : Res A :=
  match r with
  | Done a => Ok a
  | Fail e => Raise (to_exn e)
  end.

Definition result_code (o : outcome) : Z :=
  match o with
  | Won => 1%Z
  | Lost => (-1)%Z
  | InProgress => 0%Z
  end.

Definition outcome_of_code (z : Z) : outcome :=
  if (z =? 1)%Z then Won else if (z =? -1)%Z then Lost else InProgress.

(** Modelled from the spec: the fixed dimensions and number of mines of
    every game. *)
Definition default_width : nat := 8.
Definition default_height : nat := 8.
Definition default_mines : nat := 10.

Definition move (b : Board) (token : pystr) : Result Board :=
  match Parse (width b) (height b) token with
  | Done (r, c) => Reveal b r c
  | Fail e => Fail e
  end.

End game.

#[export] Instance game_Board : BoardAPI := {
  Board := game.Board;
  Time := Z;
  Rand := list nat;
  Board_new := fun draws now =>
    game.to_res (game.Create game.default_width game.default_height
                             game.default_mines draws now);
  Board_load := fun s => game.to_res (game.Import s);
  move := fun b t => game.to_res (game.move b t);
  export := game.Export;
  result := fun b => game.result_code (game.Outcome b);
  get_score := game.Score;
  reveal := fun b r => game.RenderFull b (game.outcome_of_code r);
  Board_str := game.RenderCurrent
}.


(* ===================================================================== *)
(** * A small board and a few worlds to run the handlers on *)
(* ===================================================================== *)

Module scene.

(** The 3 x 3 board of the specification's scenarios: one mine in the
    corner (0,0), created at time 100. *)
Definition corner_board : game.Board :=
  game.mkBoard 3 3
    (map (fun i => game.mkCell (Nat.eqb i 0)
                               (game.adjacent [0%nat] 3 3 (i / 3) (i mod 3))
                               game.Hidden)
         (seq 0 9))
    1 100.

Definition ann : pystr := lit "ann@example.org".

(** In the worlds below the storage gives a new record the score 0; the
    statements proved for every world do not depend on it. *)
Definition table (b : option pystr) (high : Z) : db.DBManager :=
  db.mkDB [db.mkGame ann 7 b high] [(ann, lit "ann")] [] 0.

(** Ann is playing on [corner_board] in chat 7, with high score
    [high]. *)
Definition playing (high : Z) : World :=
  mkWorld (table (Some (game.Export corner_board)) high) [] [] [].

(** Ann has a game record and no board. *)
Definition idle : World := mkWorld (table None 3) [] [] [].

(** Nobody is registered. *)
Definition empty : World := mkWorld (db.mkDB [] [] [] 0) [] [] [].

Definition says (t : string) : Message := mkMessage (lit t) 7 ann (lit "Ann").

(** Bea, who has no game record, writes [t] in the chat of Ann's game. *)
Definition bea : pystr := lit "bea@example.org".

Definition bea_says (t : string) : Message :=
  mkMessage (lit t) 7 bea (lit "Bea").

(** Ann sends [t] at time 130 while playing with high score [high]. *)
Definition after (t : string) (high : Z) : World :=
  snd (@filter_messages ascii_only game_Board 130 (says t) (playing high)).

(** The board after the move [t] on [corner_board]. *)
Definition moved (t : string) : game.Board :=
  match game.move corner_board (lit t) with
  | game.Done b => b
  | game.Fail _ => corner_board
  end.

End scene.


(* ===================================================================== *)
(** * What the handlers keep of the records *)
(* ===================================================================== *)

(** The address is the key of a game record. *)
Definition unique_addrs (d : db.DBManager) : Prop :=
  NoDup (map db.addr (db.games d)).

(** Each game has a group of its own: no two records share a chat. *)
Definition unique_gids (d : db.DBManager) : Prop :=
  NoDup (map db.gid (db.games d)).

(** A record after a handler ran: the same player, the same chat, and a
    high score that is not lower. *)
Definition row_kept (r r' : db.Game) : Prop :=
  db.addr r' = db.addr r /\ db.gid r' = db.gid r
  /\ db.score r <= db.score r'.

(** The storage after a handler ran: the nicks are the same, every record
    is still there, in place, and records may have been added. *)
Definition records_kept (d d' : db.DBManager) : Prop :=
  db.nicks d' = db.nicks d
  /\ exists rows extra,
       db.games d' = rows ++ extra
       /\ Forall2 row_kept (db.games d) rows.

(** The greeting of a first game,
    ["Hello {}, in this group you can play Minesweeper.\n\n"]. *)
Definition greeting (name : pystr) : pystr :=
  lit "Hello " ++ name
  ++ lit ", in this group you can play Minesweeper." ++ nl ++ nl.

(** ["Game started!\n\n"]. *)
Definition game_started : pystr := lit "Game started!" ++ nl ++ nl.

Module scene2.

(** Ann has a nick and has not played yet. *)
Definition registered : World :=
  mkWorld (db.mkDB [] [(scene.ann, lit "ann")] [] 0) [] [] [].

(** The board [Board()] makes from the draws [[3; 1; 4]] at time 50. *)
Definition fresh : game.Board :=
  match game.Create game.default_width game.default_height
                    game.default_mines [3; 1; 4]%nat 50 with
  | game.Done b => b
  | game.Fail _ => scene.corner_board
  end.

(** Ann sends [/mines_play]; the messenger would give a new group the
    id 9. *)
Definition plays (w : World) : World :=
  snd (@mines_play game_Board [3; 1; 4]%nat 50 60 9
                   (scene.says "/mines_play") w).

End scene2.

(* ===================================================================== *)
(** * [mines_nick] *)
(* ===================================================================== *)

(** ** [str.split()] and [str.join()] *)

(** What [str.isspace()] says of the characters above ASCII; on the ASCII
    range the whitespace characters are written out. *)
Class SpaceTable := {
  uc_space : codepoint -> bool
}.

Definition ascii_space (c : codepoint) : bool :=
  ((9 <=? c) && (c <=? 13) || (28 <=? c) && (c <=? 32))%N.

Definition c_isspace {S : SpaceTable} (c : codepoint) : bool :=
  if is_ascii c then ascii_space c else uc_space c.

(** No whitespace above ASCII: enough for ASCII payloads. *)
Definition ascii_spaces : SpaceTable := {| uc_space := fun _ => false |}.

(** [s.split()]: the maximal runs of characters that are not whitespace;
    [cur] is the run being read. *)
Fixpoint split_words {S : SpaceTable} (cur s : pystr) : list pystr :=
  match s with
  | [] => match cur with
          | [] => []
          | _ :: _ => [cur]
          end
  | c :: s' =>
    if c_isspace c
    then match cur with
         | [] => split_words [] s'
         | _ :: _ => cur :: split_words [] s'
         end
    else split_words (cur ++ [c]) s'
  end.

Definition split {S : SpaceTable} (s : pystr) : list pystr :=
  split_words [] s.

(** [sep.join(l)]. *)
Fixpoint join (sep : pystr) (l : list pystr) : pystr :=
  match l with
  | [] => []
  | x :: l' =>
    match l' with
    | [] => x
    | _ :: _ => x ++ sep ++ join sep l'
    end
  end.

(** ** The regular expressions [nick_re] is made of *)

Inductive regex : Type :=
| In_set (p : codepoint -> bool)         (* [...] *)
| Repeat (r : regex) (lo hi : nat)       (* r{lo,hi} *)
| End_of_string                          (* $ *)
| Then (r1 r2 : regex).                  (* r1 r2 *)

(** The ways to match between [lo] and [hi] times, the longest first;
    [step] gives the remainders of one match. *)
Fixpoint iterate (step : pystr -> list pystr) (lo hi : nat) (s : pystr)
  : list pystr :=
  match hi with
  | O => match lo with O => [s] | S _ => [] end
  | S hi' =>
    flat_map (iterate step (Nat.pred lo) hi') (step s)
    ++ match lo with O => [s] | S _ => [] end
  end.

(** What a match of [r] at the start of [s] can leave unread, in the order
    the backtracking matcher tries.  [$] matches at the end of the string
    and before a newline that ends it. *)
Fixpoint remainders (r : regex) (s : pystr) : list pystr :=
  match r with
  | In_set p =>
    match s with
    | c :: s' => if p c then [s'] else []
    | [] => []
    end
  | Repeat r lo hi => iterate (remainders r) lo hi s
  | End_of_string =>
    match s with
    | [] => [s]
    | c :: [] => if (c =? 10)%N then [s] else []
    | _ :: _ :: _ => []
    end
  | Then r1 r2 => flat_map (remainders r2) (remainders r1 s)
  end.

(** [r.match(s)] is not [None]. *)
Definition re_match (r : regex) (s : pystr) : bool :=
  match remainders r s with
  | [] => false
  | _ :: _ => true
  end.

(** The set [[-a-zA-Z0-9_]]. *)
Definition nick_set (c : codepoint) : bool :=
  (c =? 45)%N || ascii_letter c || ascii_digit c || (c =? 95)%N.

(** [nick_re = re.compile(r"[-a-zA-Z0-9_]{1,16}$")]. *)
Definition nick_re : regex :=
  Then (Repeat (In_set nick_set) 1 16) End_of_string.

(** ** The command *)

Definition invalid_nick : pystr :=
  lit "** Invalid nick, only letters, numbers, "
  ++ [34%N] ++ lit "-" ++ [34%N] ++ lit " and"
  ++ lit " " ++ [34%N] ++ lit "_" ++ [34%N]
  ++ lit " are allowed, and nick should be less than 16 characters".

Definition nick_taken : pystr := lit "** Nick already taken, try again".

(** ["{}".format(x)] for a string or [None]. *)
Definition format_opt (o : option pystr) : pystr :=
  match o with
  | Some s => s
  | None => lit "None"
  end.

(** ["** Nick: {}".format(x)]. *)
Definition nick_is (x : pystr) : pystr := lit "** Nick: " ++ x.

(** [mines_nick(payload, message, replies)]. *)
Definition mines_nick {S : SpaceTable} (payload : pystr) (message : Message)
  : M unit :=
  let addr := sender_addr message in
  match payload with
  | _ :: _ =>
    let new_nick := join (lit " ") (split payload) in
    if negb (re_match nick_re new_nick) then replies_add invalid_nick None
    else
      taken <- db_read (fun d => db.get_addr d new_nick) ;;
      if truthy taken then replies_add nick_taken None
      else
        db_write (fun d => db.set_nick d addr new_nick) ;;
        replies_add (nick_is new_nick) None
  | [] =>
    nick <- db_read (fun d => db.get_nick d addr) ;;
    replies_add (nick_is (format_opt nick)) None
  end.

(** The registry of nicks: an address has one entry, a nick belongs to one
    address, and no entry is for the empty address. *)
Definition registry_ok (d : db.DBManager) : Prop :=
  NoDup (map fst (db.nicks d))
  /\ NoDup (map snd (db.nicks d))
  /\ ~ In [] (map fst (db.nicks d)).

(** What [db.set_nick] does to one entry of the registry. *)
Definition renamed (a n : pystr) (r : pystr * pystr) : pystr * pystr :=
  if pystr_eqb (fst r) a then (a, n) else r.

(* ===================================================================== *)
(** * [mines_top] *)
(* ===================================================================== *)

(** Equality of two rows, column by column. *)
Definition game_eqb (x y : db.Game) : bool :=
  pystr_eqb (db.addr x) (db.addr y)
  && (db.gid x =? db.gid y)
  && match db.board x, db.board y with
     | Some s, Some t => pystr_eqb s t
     | None, None => true
     | _, _ => false
     end
  && (db.score x =? db.score y).

(** [games.index(game)]; [None] stands for the [ValueError] of a missing
    element. *)
Fixpoint index_of (g : db.Game) (l : list db.Game) : option nat :=
  match l with
  | [] => None
  | x :: l' => if game_eqb x g then Some O else option_map S (index_of g l')
  end.

(** [enumerate(l, k)]. *)
Definition enumerate_from {A} (k : nat) (l : list A) : list (nat * A) :=
  combine (seq k (List.length l)) l.

Definition scoreboard_head : pystr :=
  [0x1f3c6%N] ++ lit " Minesweeper Scoreboard" ++ nl ++ nl.

Definition empty_list : pystr := lit "(Empty list)".

(** ["#{} {} {}\n".format(n, db.get_nick(g["addr"]), g["score"])]. *)
Definition score_row (d : db.DBManager) (ng : nat * db.Game) : pystr :=
  lit "#" ++ str_of_int (Z.of_nat (fst ng)) ++ lit " "
  ++ format_opt (db.get_nick d (db.addr (snd ng))) ++ lit " "
  ++ str_of_int (db.score (snd ng)) ++ nl.

Definition top_limit : nat := 15.

(** The text [mines_top] builds for the sender [a]; an index out of range
    would be an [IndexError]. *)
Definition top_text (d : db.DBManager) (a : pystr) : Res pystr :=
  let limit := top_limit in
  let text := scoreboard_head in
  let game := db.get_game_by_addr d a in
  let games := match game with
               | None => db.get_games d (Some limit)
               | Some _ => db.get_games d None
               end in
  let text := match games with
              | [] => text ++ empty_list
              | _ :: _ => text
              end in
  let text := fold_left (fun t ng => t ++ score_row d ng)
                        (enumerate_from 1 (firstn limit games)) text in
  match game with
  | None => Ok text
  | Some game =>
    match index_of game games with
    | None => Raise ValueError
    | Some player_pos =>
      if (limit <=? player_pos)%nat then
        let text := text ++ nl in
        res_bind
          (if (limit <? player_pos)%nat
           then match nth_error games (player_pos - 1) with
                | Some pgame =>
                  Ok (text ++ score_row d (player_pos, pgame))
                | None => Raise OtherException
                end
           else Ok text)
          (fun text =>
             let text := text ++ score_row d (player_pos + 1, game)%nat in
             if (player_pos <? List.length games - 1)%nat
             then match nth_error games (player_pos + 1) with
                  | Some ngame =>
                    Ok (text ++ score_row d (player_pos + 2, ngame)%nat)
                  | None => Raise OtherException
                  end
             else Ok text)
      else Ok text
    end
  end.

(** [mines_top(message, replies)]. *)
Definition mines_top (message : Message) : M unit :=
  fun w =>
    match top_text (store w) (sender_addr message) with
    | Ok text => replies_add text None w
    | Raise e => (Raise e, w)
    end.

(** The rows of a block of the scoreboard, one line each. *)
Definition score_rows (d : db.DBManager) (l : list (nat * db.Game)) : pystr :=
  List.concat (map (score_row d) l).

(** The rows [mines_top] adds for a player below the first fifteen, at
    position [p] of [games]: the row before (when it is not the
    fifteenth), the player's own and the row after. *)
Definition own_block (games : list db.Game) (p : nat) (g : db.Game)
  : list (nat * db.Game) :=
  (if (top_limit <? p)%nat
   then match nth_error games (p - 1) with
        | Some x => [(p, x)]
        | None => []
        end
   else [])
  ++ [((p + 1)%nat, g)]
  ++ (if (p <? List.length games - 1)%nat
      then match nth_error games (p + 1) with
           | Some x => [((p + 2)%nat, x)]
           | None => []
           end
      else []).

(** The blank line before the player's block. *)
Definition block_gap {A} (own : list A) : pystr :=
  match own with
  | [] => []
  | _ :: _ => nl
  end.

(** The order of the scoreboard: [x] may stand above [y]. *)
Definition not_below (x y : db.Game) : Prop := db.score y <= db.score x.

(* ===================================================================== *)
(** * [deltabot_member_removed] *)
(* ===================================================================== *)

(** A contact of the account: its id and its address.  Two contacts of an
    account are equal when their ids are. *)
Record Contact := mkContact {
  contact_id : Z;
  contact_addr : pystr
}.

Definition contact_eqb (c1 c2 : Contact) : bool :=
  contact_id c1 =? contact_id c2.

Section MemberRemoved.

(** [db.delete_game(addr)]: db.py is not part of the sources and this hook
    is its only caller, so it is left as a parameter. *)
Variable delete_game : db.DBManager -> pystr -> db.DBManager.

(** [deltabot_member_removed(bot, chat, contact)], with [me] for
    [bot.self_contact]; beside the world it returns the chats on which
    [chat.remove_contact(me)] was called. *)
Definition deltabot_member_removed (me : Contact) (chat : Z)
           (contact : Contact) (w : World) : World * list Z :=
  match db.get_game_by_gid (store w) chat with
  | Some game =>
    if pystr_eqb (contact_addr contact) (contact_addr me)
       || pystr_eqb (contact_addr contact) (db.addr game)
    then
      let w' := mkWorld (delete_game (store w) (db.addr game))
                        (groups w) (outbox w) (logged w) in
      if negb (contact_eqb contact me) then (w', [chat]) else (w', [])
    else (w, [])
  | None => (w, [])
  end.

End MemberRemoved.

(** ** One message in, at most one message out *)

(** The result of a handler started in [w]: either no reply was added, or
    the handler returned normally and added one. *)
Definition at_most_one_reply (w : World) (res : Res unit * World) : Prop :=
  outbox (snd res) = outbox w
  \/ (fst res = Ok tt /\ exists r, outbox (snd res) = outbox w ++ [r]).

(* ===================================================================== *)
(** * Histories *)
(* ===================================================================== *)

(** The game records after some handlers ran: every record is still
    there, in place, with its address, its chat and a high score that is
    not lower; records may have been added. *)
Definition games_kept (d d' : db.DBManager) : Prop :=
  exists rows extra,
    db.games d' = rows ++ extra
    /\ Forall2 row_kept (db.games d) rows.

Section Histories.
Context {U : UnicodeTables} {B : BoardAPI} {S : SpaceTable}.

(** What reaches the plugin: a message for the filter, or one of the
    commands, each with what its handler reads from outside. *)
Inductive Event : Type :=
| Text (now : Time) (msg : Message)
| Play (rnd : Rand) (t0 now : Time) (new_id : Z) (msg : Message)
| Again (now : Time) (msg : Message)
| Nick (payload : pystr) (msg : Message)
| Top (msg : Message).

Definition sender_of (e : Event) : pystr :=
  match e with
  | Text _ msg | Play _ _ _ _ msg | Again _ msg | Nick _ msg | Top msg =>
    sender_addr msg
  end.

(** The world after the handler of an event ran, however it ended. *)
Definition handle (w : World) (e : Event) : World :=
  match e with
  | Text now msg => snd (filter_messages now msg w)
  | Play rnd t0 now new_id msg => snd (mines_play rnd t0 now new_id msg w)
  | Again now msg => snd (mines_repeat now msg w)
  | Nick payload msg => snd (mines_nick payload msg w)
  | Top msg => snd (mines_top msg w)
  end.

Definition history (es : list Event) (w : World) : World :=
  fold_left handle es w.

End Histories.

(** A history for Ann on the small board: a move, a nick, the winning
    move, a new game, the scoreboard and the board again. *)
Definition ann_evening : list (@Event game_Board) :=
  [@Text game_Board 130 (scene.says "B1");
   @Nick game_Board (lit "Bob_1") (scene.says "x");
   @Text game_Board 140 (scene.says "C3");
   @Play game_Board [3; 1; 4]%nat 150 160 9 (scene.says "/mines_play");
   @Top game_Board (scene.says "/mines_top");
   @Again game_Board 170 (scene.says "/mines_repeat")].

(* ===================================================================== *)
(** * Facts about the storage model *)
(* ===================================================================== *)

Lemma pystr_eqb_refl (s : pystr) : pystr_eqb s s = true.
Proof.
  unfold pystr_eqb. destruct (list_eq_dec N.eq_dec s s); congruence.
Qed.

Lemma pystr_eqb_eq (s t : pystr) : pystr_eqb s t = true <-> s = t.
Proof.
  unfold pystr_eqb. destruct (list_eq_dec N.eq_dec s t); split; congruence.
Qed.

(** An update touches neither the chat nor the address of a row, so a
    lookup by chat finds the same row, updated when it is the player's. *)
Lemma find_gid_update (g : Z) (a : pystr) (f : db.Game -> db.Game) rows :
  (forall r, db.gid (f r) = db.gid r) ->
  find (fun r => db.gid r =? g) (db.update a f rows)
  = option_map (fun r => if pystr_eqb (db.addr r) a then f r else r)
               (find (fun r => db.gid r =? g) rows).
Proof.
  intros Hf. induction rows as [|r rows IH]; simpl; [reflexivity|].
  destruct (pystr_eqb (db.addr r) a) eqn:E.
  - rewrite Hf. destruct (db.gid r =? g); simpl; [now rewrite E | exact IH].
  - destruct (db.gid r =? g); simpl; [now rewrite E | exact IH].
Qed.

Lemma find_addr_update (a : pystr) (f : db.Game -> db.Game) rows :
  (forall r, db.addr (f r) = db.addr r) ->
  find (fun r => pystr_eqb (db.addr r) a) (db.update a f rows)
  = option_map f (find (fun r => pystr_eqb (db.addr r) a) rows).
Proof.
  intros Hf. induction rows as [|r rows IH]; simpl; [reflexivity|].
  destruct (pystr_eqb (db.addr r) a) eqn:E.
  - rewrite Hf, E. reflexivity.
  - rewrite E. exact IH.
Qed.

Lemma get_by_gid_set_board d g r v :
  db.get_game_by_gid d g = Some r ->
  db.get_game_by_gid (db.set_board d (db.addr r) v) g
  = Some (db.mkGame (db.addr r) (db.gid r) v (db.score r)).
Proof.
  unfold db.get_game_by_gid, db.set_board; simpl. intros H.
  rewrite find_gid_update by reflexivity. rewrite H. simpl.
  now rewrite pystr_eqb_refl.
Qed.

Lemma get_by_gid_set_game d g r v s :
  db.get_game_by_gid d g = Some r ->
  db.get_game_by_gid (db.set_game d (db.addr r) v s) g
  = Some (db.mkGame (db.addr r) (db.gid r) v s).
Proof.
  unfold db.get_game_by_gid, db.set_game; simpl. intros H.
  rewrite find_gid_update by reflexivity. rewrite H. simpl.
  now rewrite pystr_eqb_refl.
Qed.

(** The player of a row found by chat has a row of their own. *)
Lemma get_by_addr_of_gid d g r :
  db.get_game_by_gid d g = Some r ->
  exists r0, db.get_game_by_addr d (db.addr r) = Some r0.
Proof.
  unfold db.get_game_by_gid, db.get_game_by_addr. intros H.
  apply find_some in H. destruct H as [Hin _].
  destruct (find (fun x => pystr_eqb (db.addr x) (db.addr r)) (db.games d))
    as [r0|] eqn:E; [eauto|].
  exfalso. apply (find_none _ _ E) in Hin.
  rewrite pystr_eqb_refl in Hin. discriminate.
Qed.

Lemma get_by_addr_set_board d a v :
  db.get_game_by_addr (db.set_board d a v) a
  = option_map (fun r => db.mkGame (db.addr r) (db.gid r) v (db.score r))
               (db.get_game_by_addr d a).
Proof.
  unfold db.get_game_by_addr, db.set_board; simpl.
  now rewrite find_addr_update.
Qed.

Lemma get_by_addr_set_game d a v s :
  db.get_game_by_addr (db.set_game d a v s) a
  = option_map (fun r => db.mkGame (db.addr r) (db.gid r) v s)
               (db.get_game_by_addr d a).
Proof.
  unfold db.get_game_by_addr, db.set_game; simpl.
  now rewrite find_addr_update.
Qed.

(* ===================================================================== *)
(** * What [_run_turn] and [filter_messages] compute *)
(* ===================================================================== *)

Section HandlerFacts.
Context {U : UnicodeTables} {B : BoardAPI}.

Lemma run_turn_idle now g w r :
  db.get_game_by_gid (store w) g = Some r ->
  truthy (db.board r) = false ->
  _run_turn now g w = (Ok no_active_game, w).
Proof.
  intros Hg Hb. unfold _run_turn, bind, db_read, ret.
  rewrite Hg, Hb. reflexivity.
Qed.

Lemma run_turn_won now g w r s b :
  db.get_game_by_gid (store w) g = Some r ->
  db.board r = Some s -> s <> [] ->
  Board_load s = Ok b -> result b = 1 ->
  _run_turn now g w
  = (Ok ((win_head ++ high_score_text (bumped (get_score b now) (db.score r)))
         ++ play_again (reveal b 1)),
     mkWorld (db.set_game (store w) (db.addr r) None
                          (bumped (get_score b now) (db.score r)))
             (groups w) (outbox w) (logged w)).
Proof.
  intros Hg Hb Hs Hl Hr. unfold _run_turn, bind, db_read, lift, db_write, ret.
  rewrite Hg, Hb. destruct s as [|c s]; [congruence|]. simpl.
  rewrite Hl, Hr. reflexivity.
Qed.

Lemma run_turn_lost now g w r s b :
  db.get_game_by_gid (store w) g = Some r ->
  db.board r = Some s -> s <> [] ->
  Board_load s = Ok b -> result b = -1 ->
  _run_turn now g w
  = (Ok (died_text ++ play_again (reveal b (-1))),
     mkWorld (db.set_board (store w) (db.addr r) None)
             (groups w) (outbox w) (logged w)).
Proof.
  intros Hg Hb Hs Hl Hr. unfold _run_turn, bind, db_read, lift, db_write, ret.
  rewrite Hg, Hb. destruct s as [|c s]; [congruence|]. simpl.
  rewrite Hl, Hr. reflexivity.
Qed.

Lemma run_turn_in_progress now g w r s b :
  db.get_game_by_gid (store w) g = Some r ->
  db.board r = Some s -> s <> [] ->
  Board_load s = Ok b -> result b <> 1 -> result b <> -1 ->
  _run_turn now g w = (Ok (Board_str b), w).
Proof.
  intros Hg Hb Hs Hl H1 H2. unfold _run_turn, bind, db_read, lift, ret.
  rewrite Hg, Hb. destruct s as [|c s]; [congruence|]. simpl.
  rewrite Hl.
  destruct (Z.eqb_spec (result b) 1); [contradiction|].
  destruct (Z.eqb_spec (result b) (-1)); [contradiction|]. reflexivity.
Qed.

(** A message that passes the guard, in the chat of a game with a board
    that loads and accepts the move: the board is stored, the turn is run
    and its text is the reply. *)
Lemma filter_messages_moves now msg w r s b b1 :
  not_a_move (text msg) = false ->
  db.get_game_by_gid (store w) (chat_id msg) = Some r ->
  db.board r = Some s ->
  Board_load s = Ok b -> move b (text msg) = Ok b1 ->
  filter_messages now msg w
  = match _run_turn now (chat_id msg) (stored w r (export b1)) with
    | (Ok t, w2) =>
      (Ok tt, mkWorld (store w2) (groups w2)
                      (outbox w2 ++ [mkReply t None]) (logged w2))
    | (Raise ValueError, w2) =>
      (Ok tt, mkWorld (store w2) (groups w2)
                      (outbox w2 ++ [mkReply invalid_move None])
                      (logged w2 ++ [ValueError]))
    | (Raise e, w2) => (Raise e, w2)
    end.
Proof.
  intros Hn Hg Hb Hl Hm.
  unfold filter_messages. rewrite Hn.
  unfold bind at 1. unfold db_read at 1. rewrite Hg, Hb.
  unfold try_except_ValueError, bind, lift, db_write, replies_add,
    logger_exception, stored.
  rewrite Hl, Hm.
  destruct (_run_turn now (chat_id msg) _) as [[t|e] w2]; [reflexivity|].
  destruct e; reflexivity.
Qed.

Lemma stored_row w g r s :
  db.get_game_by_gid (store w) g = Some r ->
  db.get_game_by_gid (store (stored w r s)) g
  = Some (db.mkGame (db.addr r) (db.gid r) (Some s) (db.score r)).
Proof. intros H. simpl. now apply get_by_gid_set_board. Qed.

End HandlerFacts.

(* ===================================================================== *)
(** * The score update rule *)
(* ===================================================================== *)

Lemma bumped_above (fresh old : Z) : old < bumped fresh old.
Proof. unfold bumped. destruct (Z.leb_spec fresh old); lia. Qed.

Section Wins.
Context {U : UnicodeTables} {B : BoardAPI}.

(** A winning move, run through [filter_messages]: what the final world
    is. *)
Lemma filter_messages_won now msg w r s b b1 b2 :
  not_a_move (text msg) = false ->
  db.get_game_by_gid (store w) (chat_id msg) = Some r ->
  db.board r = Some s ->
  Board_load s = Ok b -> move b (text msg) = Ok b1 ->
  export b1 <> [] -> Board_load (export b1) = Ok b2 -> result b2 = 1 ->
  filter_messages now msg w
  = (Ok tt,
     answered
       (mkWorld (db.set_game (store (stored w r (export b1))) (db.addr r) None
                             (bumped (get_score b2 now) (db.score r)))
                (groups w) (outbox w) (logged w))
       ((win_head
         ++ high_score_text (bumped (get_score b2 now) (db.score r)))
        ++ play_again (reveal b2 1))
       None).
Proof.
  intros Hn Hg Hb Hl Hm He Hl2 Hr.
  erewrite filter_messages_moves by eassumption.
  erewrite run_turn_won
    with (r := db.mkGame (db.addr r) (db.gid r) (Some (export b1))
                         (db.score r));
    [ reflexivity | apply stored_row; eassumption | reflexivity
    | assumption | eassumption | assumption ].
Qed.

(** C1.  A move that finishes the game as won persists a high score for
    the player that is the fresh score when that exceeds the stored high
    score (the larger of the two), and the stored high score plus one
    otherwise; either way the persisted high score is strictly above the
    stored one.  The board is cleared by the same write. *)
Theorem win_strictly_raises_high_score now msg w r s b b1 b2 :
  not_a_move (text msg) = false ->
  db.get_game_by_gid (store w) (chat_id msg) = Some r ->
  db.board r = Some s ->
  Board_load s = Ok b -> move b (text msg) = Ok b1 ->
  export b1 <> [] -> Board_load (export b1) = Ok b2 -> result b2 = 1 ->
  let fresh := get_score b2 now in
  let old := db.score r in
  let w' := snd (filter_messages now msg w) in
  exists persisted,
    db.get_game_by_gid (store w') (chat_id msg)
    = Some (db.mkGame (db.addr r) (db.gid r) None persisted)
    /\ option_map db.score (db.get_game_by_addr (store w') (db.addr r))
       = Some persisted
    /\ db.journal (store w')
       = db.journal (store w)
         ++ [db.SetBoard (db.addr r) (Some (export b1));
             db.SetGame (db.addr r) None persisted]
    /\ (old < fresh -> persisted = fresh /\ persisted = Z.max fresh old)
    /\ (fresh <= old -> persisted = old + 1)
    /\ old < persisted.
Proof.
  intros Hn Hg Hb Hl Hm He Hl2 Hr fresh old w'.
  exists (bumped fresh old). subst w'.
  erewrite filter_messages_won by eassumption.
  cbn [snd answered store stored].
  repeat split.
  - eapply get_by_gid_set_board in Hg.
    eapply get_by_gid_set_game in Hg. exact Hg.
  - rewrite get_by_addr_set_game, get_by_addr_set_board.
    destruct (@get_by_addr_of_gid _ _ _ Hg) as [r0 Hr0]. rewrite Hr0. reflexivity.
  - cbn. rewrite <- app_assoc. reflexivity.
  - unfold bumped. destruct (Z.leb_spec fresh old); lia.
  - unfold bumped. destruct (Z.leb_spec fresh old); lia.
  - unfold bumped. intros H. destruct (Z.leb_spec fresh old); lia.
  - apply bumped_above.
Qed.

End Wins.

Lemma win_strictly_raises_high_score_witness :
  exists persisted,
    db.get_game_by_gid (store (scene.after "C3" 3)) 7
    = Some (db.mkGame scene.ann 7 None persisted)
    /\ 3 < persisted.
Proof.
  edestruct (@win_strictly_raises_high_score ascii_only game_Board 130
               (scene.says "C3") (scene.playing 3))
    as [p [H1 [_ [_ [_ [_ H2]]]]]].
  - reflexivity.
  - reflexivity.
  - reflexivity.
  - reflexivity.
  - reflexivity.
  - intro H. vm_compute in H. discriminate H.
  - reflexivity.
  - reflexivity.
  - exists p. split; [exact H1 | exact H2].
Defined.

(** The two branches of the rule on the corner board: a fast win over a
    low high score stores the fresh score, a win under a high score of
    5000 stores 5001. *)
Example win_stores_fresh_score :
  db.games (store (scene.after "C3" 3)) = [db.mkGame scene.ann 7 None 970].
Proof. vm_compute. reflexivity. Qed.

Example win_stores_one_more :
  db.games (store (scene.after "C3" 5000))
  = [db.mkGame scene.ann 7 None 5001].
Proof. vm_compute. reflexivity. Qed.

(* ===================================================================== *)
(** * Invalid moves *)
(* ===================================================================== *)

Section InvalidMoves.
Context {U : UnicodeTables} {B : BoardAPI}.

(** C3.  When loading the board and applying the token ends in the
    invalid-move error ([ValueError]), the handler returns normally, the
    reply is the invalid-move text, the error is logged, and the storage
    is exactly what it was: no record changed and no call was issued. *)
Theorem invalid_move_is_answered_and_nothing_stored now msg w r s :
  not_a_move (text msg) = false ->
  db.get_game_by_gid (store w) (chat_id msg) = Some r ->
  db.board r = Some s ->
  res_bind (Board_load s) (fun b => move b (text msg)) = Raise ValueError ->
  filter_messages now msg w
  = (Ok tt,
     mkWorld (store w) (groups w)
             (outbox w ++ [mkReply invalid_move None])
             (logged w ++ [ValueError])).
Proof.
  intros Hn Hg Hb He.
  unfold filter_messages. rewrite Hn.
  unfold bind at 1. unfold db_read at 1. rewrite Hg, Hb.
  unfold try_except_ValueError, bind, lift, logger_exception, replies_add.
  destruct (Board_load s) as [b|e]; simpl in He.
  - rewrite He. reflexivity.
  - injection He as ->. reflexivity.
Qed.

End InvalidMoves.

Lemma invalid_move_is_answered_and_nothing_stored_witness :
  @filter_messages ascii_only game_Board 130 (scene.says "A9")
                   (scene.playing 3)
  = (Ok tt,
     mkWorld (store (scene.playing 3)) []
             [mkReply invalid_move None] [ValueError]).
Proof.
  apply (@invalid_move_is_answered_and_nothing_stored ascii_only game_Board
           130 (scene.says "A9") (scene.playing 3)
           (db.mkGame scene.ann 7 (Some (game.Export scene.corner_board)) 3)
           (game.Export scene.corner_board)).
  - reflexivity.
  - reflexivity.
  - reflexivity.
  - vm_compute. reflexivity.
Defined.

(* ===================================================================== *)
(** * Terminal outcomes *)
(* ===================================================================== *)

Section Terminal.
Context {U : UnicodeTables} {B : BoardAPI}.

Lemma filter_messages_lost now msg w r s b b1 b2 :
  not_a_move (text msg) = false ->
  db.get_game_by_gid (store w) (chat_id msg) = Some r ->
  db.board r = Some s ->
  Board_load s = Ok b -> move b (text msg) = Ok b1 ->
  export b1 <> [] -> Board_load (export b1) = Ok b2 -> result b2 = -1 ->
  filter_messages now msg w
  = (Ok tt,
     answered
       (mkWorld (db.set_board (store (stored w r (export b1))) (db.addr r)
                              None)
                (groups w) (outbox w) (logged w))
       (died_text ++ play_again (reveal b2 (-1)))
       None).
Proof.
  intros Hn Hg Hb Hl Hm He Hl2 Hr.
  erewrite filter_messages_moves by eassumption.
  erewrite run_turn_lost
    with (r := db.mkGame (db.addr r) (db.gid r) (Some (export b1))
                         (db.score r));
    [ reflexivity | apply stored_row; eassumption | reflexivity
    | assumption | eassumption | assumption ].
Qed.

Lemma filter_messages_in_progress now msg w r s b b1 b2 :
  not_a_move (text msg) = false ->
  db.get_game_by_gid (store w) (chat_id msg) = Some r ->
  db.board r = Some s ->
  Board_load s = Ok b -> move b (text msg) = Ok b1 ->
  export b1 <> [] -> Board_load (export b1) = Ok b2 ->
  result b2 <> 1 -> result b2 <> -1 ->
  filter_messages now msg w
  = (Ok tt, answered (stored w r (export b1)) (Board_str b2) None).
Proof.
  intros Hn Hg Hb Hl Hm He Hl2 H1 H2.
  erewrite filter_messages_moves by eassumption.
  erewrite run_turn_in_progress
    with (r := db.mkGame (db.addr r) (db.gid r) (Some (export b1))
                         (db.score r));
    [ reflexivity | apply stored_row; eassumption | reflexivity
    | assumption | eassumption | assumption | assumption ].
Qed.

(** C4, amended.  A move with a terminal outcome clears the persisted
    board.  On a win the clearing write is [set_game], which also stores
    the new high score; on a loss it is [set_board], and the score of the
    record is the one it had. *)
Theorem terminal_move_clears_board now msg w r s b b1 b2 :
  not_a_move (text msg) = false ->
  db.get_game_by_gid (store w) (chat_id msg) = Some r ->
  db.board r = Some s ->
  Board_load s = Ok b -> move b (text msg) = Ok b1 ->
  export b1 <> [] -> Board_load (export b1) = Ok b2 ->
  let w' := snd (filter_messages now msg w) in
  (result b2 = 1 ->
   db.get_game_by_gid (store w') (chat_id msg)
   = Some (db.mkGame (db.addr r) (db.gid r) None
                     (bumped (get_score b2 now) (db.score r)))
   /\ db.journal (store w')
      = db.journal (store w)
        ++ [db.SetBoard (db.addr r) (Some (export b1));
            db.SetGame (db.addr r) None
                       (bumped (get_score b2 now) (db.score r))])
  /\ (result b2 = -1 ->
      db.get_game_by_gid (store w') (chat_id msg)
      = Some (db.mkGame (db.addr r) (db.gid r) None (db.score r))
      /\ db.journal (store w')
         = db.journal (store w)
           ++ [db.SetBoard (db.addr r) (Some (export b1));
               db.SetBoard (db.addr r) None]).
Proof.
  intros Hn Hg Hb Hl Hm He Hl2 w'. subst w'. split; intros Hr.
  - erewrite filter_messages_won by eassumption.
    cbn [snd answered store stored]. split.
    + eapply get_by_gid_set_board in Hg.
      eapply get_by_gid_set_game in Hg. exact Hg.
    + cbn. rewrite <- app_assoc. reflexivity.
  - erewrite filter_messages_lost by eassumption.
    cbn [snd answered store stored]. split.
    + eapply get_by_gid_set_board in Hg.
      eapply get_by_gid_set_board in Hg. exact Hg.
    + cbn. rewrite <- app_assoc. reflexivity.
Qed.

End Terminal.

Lemma terminal_move_clears_board_witness :
  db.get_game_by_gid (store (scene.after "A1" 3)) 7
  = Some (db.mkGame scene.ann 7 None 3).
Proof.
  edestruct (@terminal_move_clears_board ascii_only game_Board 130
               (scene.says "A1") (scene.playing 3)) as [_ H].
  - reflexivity.
  - reflexivity.
  - reflexivity.
  - reflexivity.
  - reflexivity.
  - intro H. vm_compute in H. discriminate H.
  - reflexivity.
  - destruct H as [H _]; [reflexivity | exact H].
Defined.

(** C4 as stated fails on a loss.  Ann steps on the mine of the corner
    board: the outcome is terminal, the board is cleared, and no call
    wrote a score; the record keeps the score 3 although the board scores
    970 at that time. *)
Lemma lost_move_writes_no_score :
  game.Outcome (scene.moved "A1") = game.Lost
  /\ db.games (store (scene.after "A1" 3)) = [db.mkGame scene.ann 7 None 3]
  /\ existsb writes_score (db.journal (store (scene.after "A1" 3))) = false
  /\ game.Score (scene.moved "A1") 130 = 970.
Proof. vm_compute. repeat split; reflexivity. Qed.

(* ===================================================================== *)
(** * The reply to a move *)
(* ===================================================================== *)

Section Replies.
Context {U : UnicodeTables} {B : BoardAPI}.

(** C6, amended.  After a valid move the handler adds one reply, to the
    chat of the message.  While the game goes on it is the rendering of
    the board as it stands.  After a win it is the winning head line, the
    line with the new high score, the pointer to the scoreboard, the full
    rendering and the invitation to play again.  After a loss it is the
    losing head line, the pointer to the scoreboard, the full rendering
    and the invitation: no score is part of it. *)
Theorem reply_after_valid_move now msg w r s b b1 b2 :
  not_a_move (text msg) = false ->
  db.get_game_by_gid (store w) (chat_id msg) = Some r ->
  db.board r = Some s ->
  Board_load s = Ok b -> move b (text msg) = Ok b1 ->
  export b1 <> [] -> Board_load (export b1) = Ok b2 ->
  let w' := snd (filter_messages now msg w) in
  (result b2 <> 1 -> result b2 <> -1 ->
   outbox w' = outbox w ++ [mkReply (Board_str b2) None])
  /\ (result b2 = 1 ->
      outbox w'
      = outbox w
        ++ [mkReply
              (win_head
               ++ (score_line_head
                   ++ str_of_int (bumped (get_score b2 now) (db.score r))
                   ++ nl ++ [0x1f4ca%N] ++ lit " /mines_top")
               ++ play_again (reveal b2 1))
              None])
  /\ (result b2 = -1 ->
      outbox w'
      = outbox w ++ [mkReply (died_text ++ play_again (reveal b2 (-1))) None]).
Proof.
  intros Hn Hg Hb Hl Hm He Hl2 w'. subst w'. repeat split.
  - intros H1 H2.
    erewrite filter_messages_in_progress by eassumption. reflexivity.
  - intros Hr. erewrite filter_messages_won by eassumption.
    cbn [snd answered outbox]. rewrite <- app_assoc. reflexivity.
  - intros Hr. erewrite filter_messages_lost by eassumption. reflexivity.
Qed.

End Replies.

Lemma reply_after_valid_move_witness :
  outbox (scene.after "B1" 3)
  = [mkReply (game.RenderCurrent (scene.moved "B1")) None].
Proof.
  edestruct (@reply_after_valid_move ascii_only game_Board 130
               (scene.says "B1") (scene.playing 3)) as [H _].
  - reflexivity.
  - reflexivity.
  - reflexivity.
  - reflexivity.
  - reflexivity.
  - intro H. vm_compute in H. discriminate H.
  - reflexivity.
  - apply H; vm_compute; discriminate.
Defined.

(** The text sent after a loss has no line that announces a score,
    whatever the full rendering is, as long as the rendering has none. *)
Lemma died_text_has_no_score_line :
  existsb (startswith score_line_head) (split_on 10%N died_text) = false.
Proof. vm_compute. reflexivity. Qed.

(** C6 as stated fails on a loss.  Ann steps on the mine: the outcome is
    not [InProgress], the reply is the summary of a lost game with the
    full rendering, and none of its lines announces a score; the reply is
    the same whatever the stored high score is. *)
Lemma lost_reply_has_no_score_line :
  game.Outcome (scene.moved "A1") = game.Lost
  /\ map reply_text (outbox (scene.after "A1" 3))
     = [died_text
        ++ play_again (game.RenderFull (scene.moved "A1") game.Lost)]
  /\ existsb (startswith score_line_head)
             (split_on 10%N (List.concat
                               (map reply_text
                                    (outbox (scene.after "A1" 3)))))
     = false
  /\ outbox (scene.after "A1" 3) = outbox (scene.after "A1" 500).
Proof. vm_compute. repeat split; reflexivity. Qed.

(** The same move sequence ending in a win does announce the score. *)
Example won_reply_has_a_score_line :
  existsb (startswith score_line_head)
          (split_on 10%N (List.concat
                            (map reply_text (outbox (scene.after "C3" 3)))))
  = true.
Proof. vm_compute. reflexivity. Qed.

(* ===================================================================== *)
(** * No active board *)
(* ===================================================================== *)

Section NoBoard.
Context {U : UnicodeTables} {B : BoardAPI}.

(** C7, amended.  With no active board nothing is modified.  A move sent
    in a chat that has no record, or whose record has no board, is
    dropped without a reply: the world is exactly what it was.  For a
    move the record is looked up by the chat alone: the handler does the
    same for every sender of the same text in the same chat.  A request
    to repeat the board, from a player who has no record or whose game
    has no board, is answered with the prompt to start a game, and that
    reply is the only change. *)
Theorem no_board_nothing_modified now msg w :
  (db.get_game_by_gid (store w) (chat_id msg) = None ->
   filter_messages now msg w = (Ok tt, w))
  /\ (forall r,
        db.get_game_by_gid (store w) (chat_id msg) = Some r ->
        db.board r = None ->
        filter_messages now msg w = (Ok tt, w))
  /\ (forall msg',
        text msg' = text msg -> chat_id msg' = chat_id msg ->
        filter_messages now msg' w = filter_messages now msg w)
  /\ (db.get_game_by_addr (store w) (sender_addr msg) = None ->
      mines_repeat now msg w = (Ok tt, answered w no_active_game None))
  /\ (forall r r',
        db.get_game_by_addr (store w) (sender_addr msg) = Some r ->
        db.get_game_by_gid (store w) (db.gid r) = Some r' ->
        truthy (db.board r') = false ->
        mines_repeat now msg w
        = (Ok tt, answered w no_active_game (Some (db.gid r)))).
Proof.
  repeat split.
  - intros Hg. unfold filter_messages.
    destruct (not_a_move (text msg)); [reflexivity|].
    unfold bind, db_read. rewrite Hg. reflexivity.
  - intros r Hg Hb. unfold filter_messages.
    destruct (not_a_move (text msg)); [reflexivity|].
    unfold bind, db_read. rewrite Hg, Hb. reflexivity.
  - intros msg' Ht Hc. unfold filter_messages. rewrite Ht, Hc. reflexivity.
  - intros Ha. unfold mines_repeat, bind, db_read. rewrite Ha. reflexivity.
  - intros r r' Ha Hg Hb. unfold mines_repeat.
    unfold bind at 1. unfold db_read at 1. rewrite Ha.
    unfold bind. erewrite run_turn_idle by eassumption. reflexivity.
Qed.

End NoBoard.

Lemma no_board_nothing_modified_witness :
  @filter_messages ascii_only game_Board 130 (scene.says "A1") scene.idle
  = (Ok tt, scene.idle).
Proof.
  destruct (@no_board_nothing_modified ascii_only game_Board 130
              (scene.says "A1") scene.idle) as [_ [H _]].
  apply (H (db.mkGame scene.ann 7 None 3)); reflexivity.
Defined.

(** C7 as stated fails for moves.  Ann has a game record and no board and
    sends the move A1 in the game chat: the handler returns with the
    world untouched, and in particular without any reply, so no prompt to
    start a game is sent. *)
Lemma move_without_board_gets_no_prompt :
  db.get_game_by_gid (store scene.idle) 7 = Some (db.mkGame scene.ann 7 None 3)
  /\ @not_a_move ascii_only (text (scene.says "A1")) = false
  /\ @filter_messages ascii_only game_Board 130 (scene.says "A1") scene.idle
     = (Ok tt, scene.idle)
  /\ outbox scene.idle = [].
Proof. vm_compute. repeat split; reflexivity. Qed.

(** The repeat command in the same situation does prompt. *)
Example repeat_without_board_prompts :
  @mines_repeat game_Board 130 (scene.says "x") scene.idle
  = (Ok tt, answered scene.idle no_active_game (Some 7)).
Proof. vm_compute. reflexivity. Qed.

(** Who sends the move does not count.  Bea has no record, hence no
    board, and sends B1 in the chat where Ann is playing: the move is
    played on Ann's board exactly as if Ann had sent it, the stored board
    changes and Bea is answered. *)
Example move_in_the_chat_of_another_player :
  db.get_game_by_addr (store (scene.playing 3)) scene.bea = None
  /\ @filter_messages ascii_only game_Board 130 (scene.bea_says "B1")
                      (scene.playing 3)
     = (Ok tt, scene.after "B1" 3)
  /\ store (scene.after "B1" 3) <> store (scene.playing 3)
  /\ List.length (outbox (scene.after "B1" 3)) = 1%nat.
Proof.
  repeat split; try (vm_compute; reflexivity).
  intro H. vm_compute in H. discriminate H.
Qed.

(* ===================================================================== *)
(** * Starting a game without a nick *)
(* ===================================================================== *)

Section Play.
Context {U : UnicodeTables} {B : BoardAPI}.

(** C9.  [mines_play] from a sender whose nick is missing (or empty)
    returns after one reply that tells them to set a nick: the storage,
    its journal included, and the groups of the bot are what they were,
    so no group, no game record and no board was made. *)
Theorem play_without_nick_only_replies rnd t0 now new_id msg w :
  truthy (db.get_nick (store w) (sender_addr msg)) = false ->
  mines_play rnd t0 now new_id msg w
  = (Ok tt,
     mkWorld (store w) (groups w) (outbox w ++ [mkReply need_nick None])
             (logged w)).
Proof.
  intros Hn. unfold mines_play.
  unfold bind at 1. unfold db_read at 1. rewrite Hn. reflexivity.
Qed.

End Play.

Lemma play_without_nick_only_replies_witness :
  @mines_play game_Board [] 0 0 9 (scene.says "/mines_play") scene.empty
  = (Ok tt, mkWorld (store scene.empty) [] [mkReply need_nick None] []).
Proof.
  apply (@play_without_nick_only_replies game_Board [] 0 0 9
           (scene.says "/mines_play") scene.empty).
  reflexivity.
Defined.

(* ===================================================================== *)
(** * Repeating the board of a game in progress *)
(* ===================================================================== *)

Section InProgress.
Context {U : UnicodeTables} {B : BoardAPI}.

(** C10.  When the stored board loads and its result is neither 1 nor -1,
    [_run_turn] returns the rendering of the board and the world it
    started from, storage journal included; [mines_repeat] on such a game
    adds the rendering as a reply to the game chat and leaves the storage
    (boards, scores, nicks, journal) as it was. *)
Theorem turn_in_progress_writes_nothing now g w r s b :
  db.get_game_by_gid (store w) g = Some r ->
  db.board r = Some s -> s <> [] ->
  Board_load s = Ok b -> result b <> 1 -> result b <> -1 ->
  _run_turn now g w = (Ok (Board_str b), w)
  /\ forall msg r0,
       db.get_game_by_addr (store w) (sender_addr msg) = Some r0 ->
       db.gid r0 = g ->
       mines_repeat now msg w
       = (Ok tt, answered w (Board_str b) (Some g))
       /\ store (snd (mines_repeat now msg w)) = store w.
Proof.
  intros Hg Hb Hs Hl H1 H2.
  pose proof (run_turn_in_progress now g w Hg Hb Hs Hl H1 H2) as Ht.
  split; [exact Ht|].
  intros msg r0 Ha Hr0.
  assert (mines_repeat now msg w
          = (Ok tt, answered w (Board_str b) (Some g))) as E.
  { unfold mines_repeat.
    unfold bind at 1. unfold db_read at 1. rewrite Ha, Hr0.
    unfold bind. rewrite Ht. reflexivity. }
  split; [exact E|]. rewrite E. reflexivity.
Qed.

End InProgress.

Lemma turn_in_progress_writes_nothing_witness :
  @_run_turn game_Board 130 7 (scene.playing 3)
  = (Ok (game.RenderCurrent scene.corner_board), scene.playing 3).
Proof.
  apply (@turn_in_progress_writes_nothing game_Board 130 7 (scene.playing 3)
           (db.mkGame scene.ann 7 (Some (game.Export scene.corner_board)) 3)
           (game.Export scene.corner_board) scene.corner_board).
  - reflexivity.
  - reflexivity.
  - vm_compute. discriminate.
  - vm_compute. reflexivity.
  - vm_compute. discriminate.
  - vm_compute. discriminate.
Defined.

(* ===================================================================== *)
(** * The guard of the filter *)
(* ===================================================================== *)

Section Guard.
Context {U : UnicodeTables} {B : BoardAPI}.

Lemma guard_passes_iff (t : pystr) :
  not_a_move t = false
  <-> List.length t = 2%nat /\ isalnum t = true
      /\ isalpha t = false /\ isdigit t = false.
Proof.
  unfold not_a_move. split.
  - intros H.
    apply orb_false_elim in H. destruct H as [H Hd].
    apply orb_false_elim in H. destruct H as [H Ha].
    apply orb_false_elim in H. destruct H as [Hl Hn].
    apply negb_false_iff in Hl, Hn. apply Nat.eqb_eq in Hl. auto.
  - intros (Hl & Hn & Ha & Hd).
    rewrite Hl, Hn, Ha, Hd. reflexivity.
Qed.

(** The same guard, character by character. *)
Lemma guard_passes_chars (t : pystr) :
  not_a_move t = false
  <-> exists c d,
        t = [c; d]
        /\ c_isalnum c = true /\ c_isalnum d = true
        /\ c_isalpha c && c_isalpha d = false
        /\ c_isdigit c && c_isdigit d = false.
Proof.
  rewrite guard_passes_iff. split.
  - intros (Hl & Hn & Ha & Hd).
    destruct t as [|c [|d [|e t]]]; try discriminate Hl.
    exists c, d. unfold isalnum, isalpha, isdigit in *. simpl in *.
    rewrite !andb_true_r in *.
    apply andb_prop in Hn. destruct Hn. auto.
  - intros (c & d & -> & Hc & Hd & Ha & Hg).
    unfold isalnum, isalpha, isdigit. simpl.
    rewrite !andb_true_r, Hc, Hd, Ha, Hg. auto.
Qed.

(** C2.  A message gets past the guard of [filter_messages] exactly when
    its text has two characters, is alphanumeric ([isalnum]), is not all
    alphabetic ([isalpha]) and is not all digits ([isdigit]); that is,
    two alphanumeric characters that are not both letters and not both
    digits.  Any other message makes the handler return at once: it
    returns normally and the world, storage and replies included, is
    the one it was called in. *)
Theorem only_candidate_moves_are_processed now msg w :
  (not_a_move (text msg) = false
   <-> List.length (text msg) = 2%nat /\ isalnum (text msg) = true
       /\ isalpha (text msg) = false /\ isdigit (text msg) = false)
  /\ (not_a_move (text msg) = false
      <-> exists c d,
            text msg = [c; d]
            /\ c_isalnum c = true /\ c_isalnum d = true
            /\ c_isalpha c && c_isalpha d = false
            /\ c_isdigit c && c_isdigit d = false)
  /\ (not_a_move (text msg) = true ->
      filter_messages now msg w = (Ok tt, w))
  /\ (filter_messages now msg w <> (Ok tt, w) ->
      not_a_move (text msg) = false).
Proof.
  split; [apply guard_passes_iff|].
  split; [apply guard_passes_chars|].
  split.
  - intros H. unfold filter_messages. rewrite H. reflexivity.
  - intros H. destruct (not_a_move (text msg)) eqn:E; [|reflexivity].
    exfalso. apply H. unfold filter_messages. rewrite E. reflexivity.
Qed.

(** The tokens of the specification's scenario, under any table: [A1] and
    [1A] get past the guard, [AB] and [12] do not. *)
Example guard_on_scenario_tokens :
  not_a_move (lit "A1") = false /\ not_a_move (lit "1A") = false
  /\ not_a_move (lit "AB") = true /\ not_a_move (lit "12") = true.
Proof. repeat split; reflexivity. Qed.

End Guard.

(** The guard tests [isdigit], which is narrower than [isnumeric]: a text
    of two characters that are numeric without being digits is
    alphanumeric, not alphabetic and not all digits, and gets past. *)
Example guard_on_two_fractions :
  @isalnum one_half_only [0xbd%N; 0xbd%N] = true
  /\ @isdigit one_half_only [0xbd%N; 0xbd%N] = false
  /\ @not_a_move one_half_only [0xbd%N; 0xbd%N] = false.
Proof. repeat split; reflexivity. Qed.

Lemma only_candidate_moves_are_processed_witness :
  @filter_messages ascii_only game_Board 130 (scene.says "AB")
                   (scene.playing 3)
  = (Ok tt, scene.playing 3).
Proof.
  destruct (@only_candidate_moves_are_processed ascii_only game_Board 130
              (scene.says "AB") (scene.playing 3)) as [_ [_ [H _]]].
  apply H. reflexivity.
Defined.

(* ===================================================================== *)
(** * Move tokens *)
(* ===================================================================== *)

Lemma letter_is_no_digit l c :
  game.letter_index l = Some c -> game.digit_index l = None.
Proof.
  unfold game.letter_index, game.digit_index. intros H.
  destruct ((49 <=? l)%N && (l <=? 57)%N) eqn:E; [|reflexivity].
  apply andb_prop in E. destruct E as [E1 E2].
  apply N.leb_le in E1, E2.
  destruct (N.leb_spec 65 l); [|destruct (N.leb_spec 97 l)]; simpl in H;
    try lia; discriminate.
Qed.

Lemma digit_is_no_letter d r :
  game.digit_index d = Some r -> game.letter_index d = None.
Proof.
  intros H. destruct (game.letter_index d) as [c|] eqn:E; [|reflexivity].
  apply letter_is_no_digit in E. congruence.
Qed.

(** Every column up to 26 has its letters and every row up to 9 its
    digit. *)
Lemma letter_of_column (c : nat) :
  (c < 26)%nat ->
  game.letter_index (65 + N.of_nat c)%N = Some c
  /\ game.letter_index (97 + N.of_nat c)%N = Some c.
Proof.
  intros H. unfold game.letter_index.
  destruct (N.leb_spec 65 (65 + N.of_nat c)); [|lia].
  destruct (N.leb_spec (65 + N.of_nat c) 90); [|lia].
  destruct (N.leb_spec 65 (97 + N.of_nat c)); [|lia].
  destruct (N.leb_spec (97 + N.of_nat c) 90); [lia|].
  destruct (N.leb_spec 97 (97 + N.of_nat c)); [|lia].
  destruct (N.leb_spec (97 + N.of_nat c) 122); [|lia].
  cbn [andb]. split; f_equal; lia.
Qed.

Lemma digit_of_row (r : nat) :
  (r < 9)%nat -> game.digit_index (49 + N.of_nat r)%N = Some r.
Proof.
  intros H. unfold game.digit_index.
  destruct (N.leb_spec 49 (49 + N.of_nat r)); [|lia].
  destruct (N.leb_spec (49 + N.of_nat r) 57); [|lia].
  cbn [andb]. f_equal. lia.
Qed.

(** A letter and a digit, in either order, name the position that is then
    checked against the grid. *)
Lemma parse_letter_digit (w h : nat) (l d : codepoint) (c r : nat) :
  game.letter_index l = Some c ->
  game.digit_index d = Some r ->
  game.Parse w h [l; d] = game.on_grid w h (r, c)
  /\ game.Parse w h [d; l] = game.on_grid w h (r, c).
Proof.
  intros Hl Hd. unfold game.Parse. split.
  - rewrite Hl, Hd. reflexivity.
  - rewrite (digit_is_no_letter _ Hd), Hd, Hl. reflexivity.
Qed.

(** C8.  A letter [l] naming column [c] and a digit [d] naming row [r]
    give two tokens, [l d] and [d l].  Both parse to the same result; on
    a grid that contains (r, c) that result is the pair (r, c); on a grid
    that does not, parsing fails with the invalid-token error, and the
    move on a board of those dimensions raises the invalid-move error
    ([ValueError]) for either token. *)
Theorem parse_accepts_either_order (w h : nat) (l d : codepoint) (c r : nat) :
  game.letter_index l = Some c ->
  game.digit_index d = Some r ->
  game.Parse w h [l; d] = game.Parse w h [d; l]
  /\ ((r < h)%nat -> (c < w)%nat ->
      game.Parse w h [l; d] = game.Done (r, c)
      /\ game.Parse w h [d; l] = game.Done (r, c))
  /\ (~ ((r < h)%nat /\ (c < w)%nat) ->
      game.Parse w h [l; d] = game.Fail game.InvalidToken
      /\ game.Parse w h [d; l] = game.Fail game.InvalidToken
      /\ forall b : game.Board,
           game.width b = w -> game.height b = h ->
           move (BoardAPI := game_Board) b [l; d] = Raise ValueError
           /\ move (BoardAPI := game_Board) b [d; l] = Raise ValueError).
Proof.
  intros Hl Hd.
  destruct (parse_letter_digit w h _ _ Hl Hd) as [E1 E2].
  rewrite E1, E2. unfold game.on_grid. simpl fst. simpl snd.
  split; [reflexivity|]. split.
  - intros Hr Hc.
    apply Nat.ltb_lt in Hr, Hc. rewrite Hr, Hc. auto.
  - intros Hout.
    assert ((r <? h)%nat && (c <? w)%nat = false) as E.
    { destruct (Nat.ltb_spec r h); destruct (Nat.ltb_spec c w);
        try reflexivity. exfalso. apply Hout. auto. }
    rewrite E. split; [reflexivity|]. split; [reflexivity|].
    intros b Hw Hh. simpl. unfold game.move.
    rewrite Hw, Hh, E1, E2. unfold game.on_grid. simpl fst. simpl snd.
    rewrite E. auto.
Qed.

Lemma parse_accepts_either_order_witness :
  game.Parse 8 8 (lit "A1") = game.Parse 8 8 (lit "1A").
Proof.
  destruct (@parse_accepts_either_order 8 8 65%N 49%N 0%nat 0%nat)
    as [H _].
  - reflexivity.
  - reflexivity.
  - exact H.
Defined.

(** The scenario of the specification on an 8 x 8 board. *)
Example parse_scenario :
  game.Parse 8 8 (lit "A1") = game.Done (0%nat, 0%nat)
  /\ game.Parse 8 8 (lit "1A") = game.Done (0%nat, 0%nat)
  /\ game.Parse 8 8 (lit "a1") = game.Done (0%nat, 0%nat)
  /\ game.Parse 8 8 (lit "A9") = game.Fail game.InvalidToken
  /\ game.Parse 8 8 (lit "H8") = game.Done (7%nat, 7%nat).
Proof. repeat split; reflexivity. Qed.

(** Every position of a grid of at most 9 rows and 26 columns has a
    token, in both orders and both cases. *)
Lemma every_cell_has_a_token (w h r c : nat) :
  (r < h)%nat -> (c < w)%nat -> (h <= 9)%nat -> (w <= 26)%nat ->
  game.Parse w h [(65 + N.of_nat c)%N; (49 + N.of_nat r)%N] = game.Done (r, c)
  /\ game.Parse w h [(49 + N.of_nat r)%N; (65 + N.of_nat c)%N]
     = game.Done (r, c)
  /\ game.Parse w h [(97 + N.of_nat c)%N; (49 + N.of_nat r)%N]
     = game.Done (r, c)
  /\ game.Parse w h [(49 + N.of_nat r)%N; (97 + N.of_nat c)%N]
     = game.Done (r, c).
Proof.
  intros Hr Hc Hh Hw.
  destruct (@letter_of_column c) as [Hu Hlo]; [lia|].
  assert (game.digit_index (49 + N.of_nat r)%N = Some r) as Hd
    by (apply digit_of_row; lia).
  destruct (parse_letter_digit w h _ _ Hu Hd) as [H1 H2].
  destruct (parse_letter_digit w h _ _ Hlo Hd) as [H3 H4].
  unfold codepoint in *.
  rewrite H1, H2, H3, H4. unfold game.on_grid. simpl fst. simpl snd.
  apply Nat.ltb_lt in Hr, Hc. rewrite Hr, Hc. auto.
Qed.

(* ===================================================================== *)
(** * Serialization of the board *)
(* ===================================================================== *)

(** ** Decimal numerals *)

Lemma ascii_string_lit (s : string) : ascii_string (lit s) = Some s.
Proof.
  unfold lit. induction s as [|a s IH]; simpl; [reflexivity|].
  pose proof (N_ascii_bounded a) as Hb.
  destruct (N.ltb_spec (N_of_ascii a) 256); [|lia].
  rewrite IH. simpl. now rewrite ascii_N_embedding.
Qed.

Lemma int_of_str_of_int (z : Z) : int_of_str (str_of_int z) = Some z.
Proof.
  unfold int_of_str, str_of_int. rewrite ascii_string_lit.
  rewrite NilZero.isi.
  - simpl. now rewrite DecimalZ.of_to.
  - destruct z; simpl; try discriminate.
    intros H. injection H as H. now apply Unsigned.to_uint_nonnil in H.
  - destruct z; simpl; try discriminate.
    intros H. injection H as H. now apply Unsigned.to_uint_nonnil in H.
Qed.

Lemma undec_dec (n : nat) : game.undec (game.dec n) = Some n.
Proof.
  unfold game.undec, game.dec. rewrite int_of_str_of_int.
  destruct (Z.ltb_spec (Z.of_nat n) 0); [lia|].
  now rewrite Nat2Z.id.
Qed.

Lemma uint_no_break (d : Decimal.uint) :
  no_break (lit (NilEmpty.string_of_uint d)).
Proof.
  unfold no_break, lit.
  induction d; simpl; [intros [] | ..];
    (intros [H|H]; [discriminate H | auto]).
Qed.

Lemma str_of_int_no_break (z : Z) : no_break (str_of_int z).
Proof.
  unfold str_of_int.
  assert (forall d, no_break (lit (NilZero.string_of_uint d))) as Hu.
  { intros d. destruct d; try apply uint_no_break.
    unfold no_break. simpl. intros [H|[]]. discriminate H. }
  destruct (Z.to_int z) as [d|d]; simpl.
  - apply Hu.
  - unfold no_break. change (lit (String "-" (NilZero.string_of_uint d)))
      with (45%N :: lit (NilZero.string_of_uint d)).
    intros [H|H]; [discriminate H|]. now apply (Hu d).
Qed.

(** ** Splitting at line breaks *)

Lemma split_on_whole (sep : codepoint) (f : pystr) :
  ~ In sep f -> split_on sep f = [f].
Proof.
  induction f as [|c f IH]; simpl; intros H; [reflexivity|].
  destruct (N.eqb_spec c sep) as [->|Hne]; [exfalso; auto|].
  rewrite IH by auto. reflexivity.
Qed.

Lemma split_on_field (sep : codepoint) (f rest : pystr) :
  ~ In sep f ->
  split_on sep (f ++ sep :: rest) = f :: split_on sep rest.
Proof.
  induction f as [|c f IH]; simpl; intros H.
  - now rewrite N.eqb_refl.
  - destruct (N.eqb_spec c sep) as [->|Hne]; [exfalso; auto|].
    rewrite IH by auto. reflexivity.
Qed.

(** ** Cells *)

Lemma cell_decode_code (c : game.Cell) :
  (game.adjacentMineCount c <= 8)%nat ->
  exists f,
    game.cell_code c = [f; (48 + N.of_nat (game.adjacentMineCount c))%N]
    /\ game.cell_decode f (48 + N.of_nat (game.adjacentMineCount c))%N
       = Some c.
Proof.
  destruct c as [m n st].
  unfold game.cell_code, game.cell_decode.
  cbn [game.isMine game.adjacentMineCount game.state]. intros Hn.
  eexists. split; [reflexivity|].
  destruct (N.leb_spec 48 (48 + N.of_nat n)); [|lia].
  destruct (N.leb_spec (48 + N.of_nat n) 56); [|lia].
  cbn [andb].
  replace (N.to_nat (48 + N.of_nat n - 48)) with n by lia.
  destruct m, st; reflexivity.
Qed.

Lemma cells_decode_code (cs : list game.Cell) :
  Forall (fun c => (game.adjacentMineCount c <= 8)%nat) cs ->
  game.cells_decode (List.concat (map game.cell_code cs)) = Some cs.
Proof.
  induction 1 as [|c cs Hc _ IH]; [reflexivity|].
  destruct (cell_decode_code c Hc) as (f & Hf & Hd).
  cbn [map List.concat]. rewrite Hf. cbn [app game.cells_decode].
  rewrite Hd, IH. reflexivity.
Qed.

Lemma cells_no_break (cs : list game.Cell) :
  no_break (List.concat (map game.cell_code cs)).
Proof.
  unfold no_break. induction cs as [|c cs IH]; [intros []|].
  cbn [map List.concat]. unfold game.cell_code at 1. cbn [app].
  intros [H|[H|H]]; [| |auto].
  - destruct (game.isMine c), (game.state c); discriminate H.
  - lia.
Qed.

(** ** The round trip *)

Lemma nl_app (x : pystr) : nl ++ x = 10%N :: x.
Proof. reflexivity. Qed.

Lemma dec_no_break (n : nat) : no_break (game.dec n).
Proof. apply str_of_int_no_break. Qed.

Lemma version_no_break : no_break game.format_version.
Proof. unfold no_break. simpl. intros [H|[]]. discriminate H. Qed.

Lemma import_export (b : game.Board) :
  game.well_formed b -> game.Import (game.Export b) = game.Done b.
Proof.
  intros [Hlen Hadj]. unfold game.Import, game.Export.
  rewrite !nl_app.
  rewrite (split_on_field 10%N) by apply version_no_break.
  rewrite !(split_on_field 10%N) by apply dec_no_break.
  rewrite (split_on_field 10%N) by apply str_of_int_no_break.
  rewrite split_on_whole by apply cells_no_break.
  rewrite pystr_eqb_refl, !undec_dec, int_of_str_of_int.
  rewrite cells_decode_code by exact Hadj.
  rewrite Hlen, Nat.eqb_refl. destruct b; reflexivity.
Qed.

(** ** Every board of a game is well formed *)

Lemma filter_drops_one {A} (f : A -> bool) (x : A) (l : list A) :
  In x l -> f x = false ->
  (List.length (filter f l) < List.length l)%nat.
Proof.
  induction l as [|y l IH]; simpl; intros Hin Hx; [contradiction|].
  destruct Hin as [->|Hin].
  - rewrite Hx. pose proof (filter_length_le f l). lia.
  - specialize (IH Hin Hx). destruct (f y); simpl; lia.
Qed.

Lemma around_self (n : nat) : In n (game.around n).
Proof. destruct n; simpl; auto. Qed.

Lemma around_length (n : nat) : (List.length (game.around n) <= 3)%nat.
Proof. destruct n; simpl; lia. Qed.

(** A cell has at most eight neighbours. *)
Lemma neighbours_at_most_8 (w h r c : nat) :
  (List.length (game.neighbours w h r c) <= 8)%nat.
Proof.
  unfold game.neighbours.
  assert (List.length (list_prod (game.around r) (game.around c)) <= 9)%nat
    as H9.
  { rewrite length_prod.
    pose proof (around_length r). pose proof (around_length c). nia. }
  match goal with
  | |- (List.length (filter ?f ?l) <= 8)%nat =>
    assert (List.length (filter f l) < List.length l)%nat as Hlt
  end.
  { apply filter_drops_one with (x := (r, c)).
    - apply in_prod; apply around_self.
    - simpl. rewrite !Nat.eqb_refl. simpl. apply andb_false_r. }
  lia.
Qed.

Lemma adjacent_at_most_8 (mines : list nat) (w h r c : nat) :
  (game.adjacent mines w h r c <= 8)%nat.
Proof.
  unfold game.adjacent.
  pose proof (filter_length_le (game.mine_at mines w)
                               (game.neighbours w h r c)).
  pose proof (neighbours_at_most_8 w h r c). lia.
Qed.

Lemma create_well_formed w h m draws now b :
  game.Create w h m draws now = game.Done b -> game.well_formed b.
Proof.
  unfold game.Create. destruct (w * h <=? m)%nat; [discriminate|].
  intros H. injection H as <-. split; simpl.
  - now rewrite length_map, length_seq.
  - apply Forall_map. apply Forall_forall. intros i _. simpl.
    apply adjacent_at_most_8.
Qed.

Lemma reveal_nth_length (i : nat) (l : list game.Cell) :
  List.length (game.reveal_nth i l) = List.length l.
Proof.
  revert i. induction l as [|x l IH]; intros [|i]; simpl; auto.
Qed.

Lemma reveal_nth_counts (i : nat) (l : list game.Cell) :
  Forall (fun c => (game.adjacentMineCount c <= 8)%nat) l ->
  Forall (fun c => (game.adjacentMineCount c <= 8)%nat)
         (game.reveal_nth i l).
Proof.
  intros H. revert i. induction H as [|x l Hx Hl IH]; intros [|i]; simpl;
    constructor; auto.
Qed.

Lemma set_revealed_well_formed b r c :
  game.well_formed b -> game.well_formed (game.set_revealed b r c).
Proof.
  intros [Hl Ha]. split; simpl.
  - now rewrite reveal_nth_length.
  - now apply reveal_nth_counts.
Qed.

Lemma cascade_well_formed fuel work b :
  game.well_formed b -> game.well_formed (game.cascade fuel work b).
Proof.
  revert work b. induction fuel as [|fuel IH]; intros work b Hb; simpl.
  - exact Hb.
  - destruct work as [|[r c] rest]; [exact Hb|].
    destruct (game.cell_at b r c) as [cl|]; [|now apply IH].
    destruct (game.isMine cl || game.is_revealed cl); [now apply IH|].
    destruct (game.adjacentMineCount cl =? 0)%nat;
      apply IH; now apply set_revealed_well_formed.
Qed.

Lemma reveal_well_formed b r c b' :
  game.well_formed b -> game.Reveal b r c = game.Done b' ->
  game.well_formed b'.
Proof.
  intros Hb. unfold game.Reveal.
  destruct (game.cell_at b r c) as [cl|]; [|discriminate].
  destruct (game.is_revealed cl); [intros H; injection H as <-; exact Hb|].
  destruct (game.isMine cl); intros H; injection H as <-.
  - now apply set_revealed_well_formed.
  - now apply cascade_well_formed.
Qed.

Lemma reachable_well_formed b : game.reachable b -> game.well_formed b.
Proof.
  induction 1 as [w h m draws now b Hc | b r c b' _ IH Hr].
  - eapply create_well_formed; eassumption.
  - eapply reveal_well_formed; eassumption.
Qed.

(** C5.  The export of a well-formed board imports to that very board:
    same dimensions, cells (mine, count and state of each), number of
    mines and start timestamp.  Hence whatever is asked of the imported
    board, a reveal, a move, the outcome, the score or either rendering,
    has the answer the original board gives; and the constructor the
    plugin calls on the stored text returns the board that was
    exported. *)
Theorem import_of_export_is_the_board (b : game.Board) :
  game.well_formed b ->
  game.Import (game.Export b) = game.Done b
  /\ Board_load (BoardAPI := game_Board) (export b) = Ok b
  /\ forall b',
       game.Import (game.Export b) = game.Done b' ->
       game.width b' = game.width b
       /\ game.height b' = game.height b
       /\ game.cells b' = game.cells b
       /\ game.mineCount b' = game.mineCount b
       /\ game.startedAt b' = game.startedAt b
       /\ (forall r c, game.Reveal b' r c = game.Reveal b r c)
       /\ (forall t, game.move b' t = game.move b t)
       /\ game.Outcome b' = game.Outcome b
       /\ (forall now, game.Score b' now = game.Score b now)
       /\ (forall o, game.RenderFull b' o = game.RenderFull b o)
       /\ game.RenderCurrent b' = game.RenderCurrent b.
Proof.
  intros Hb. pose proof (import_export Hb) as E.
  split; [exact E|]. split.
  - simpl. rewrite E. reflexivity.
  - intros b' E'. rewrite E in E'. injection E' as <-.
    repeat split; reflexivity.
Qed.

(** The round trip for the boards of a game. *)
Corollary import_of_export_reachable (b : game.Board) :
  game.reachable b -> game.Import (game.Export b) = game.Done b.
Proof. intros H. apply import_export. now apply reachable_well_formed. Qed.

Lemma import_of_export_is_the_board_witness :
  game.Import (game.Export scene.corner_board)
  = game.Done scene.corner_board.
Proof.
  destruct (@import_of_export_is_the_board scene.corner_board) as [H _].
  - split; [reflexivity|]. vm_compute. repeat constructor.
  - exact H.
Defined.

(** The scenarios of the specification on the corner board: revealing
    the far corner opens the eight safe cells and wins; revealing the
    mine loses and opens nothing else. *)
Example corner_board_scenarios :
  map game.is_revealed (game.cells (scene.moved "C3"))
  = [false; true; true; true; true; true; true; true; true]
  /\ game.Outcome (scene.moved "C3") = game.Won
  /\ map game.is_revealed (game.cells (scene.moved "A1"))
     = [true; false; false; false; false; false; false; false; false]
  /\ game.Outcome (scene.moved "A1") = game.Lost.
Proof. vm_compute. repeat split; reflexivity. Qed.

(* ===================================================================== *)
(** * The records survive every handler *)
(* ===================================================================== *)

Lemma row_kept_refl (r : db.Game) : row_kept r r.
Proof. unfold row_kept. repeat split; lia. Qed.

Lemma rows_kept_refl (rows : list db.Game) : Forall2 row_kept rows rows.
Proof. induction rows; constructor; auto using row_kept_refl. Qed.

Lemma records_kept_refl (d : db.DBManager) : records_kept d d.
Proof.
  split; [reflexivity|]. exists (db.games d), [].
  rewrite app_nil_r. auto using rows_kept_refl.
Qed.

Lemma rows_kept_trans (l1 l2 l3 : list db.Game) :
  Forall2 row_kept l1 l2 -> Forall2 row_kept l2 l3 -> Forall2 row_kept l1 l3.
Proof.
  intros H. revert l3. induction H as [|a b l1 l2 Hab _ IH]; intros l3 H3.
  - inversion H3. constructor.
  - inversion H3 as [|b' c l2' l3' Hbc Hrest]; subst. constructor; auto.
    destruct Hab as (A1 & A2 & A3), Hbc as (B1 & B2 & B3).
    unfold row_kept. repeat split; try congruence. lia.
Qed.

Lemma records_kept_trans (d1 d2 d3 : db.DBManager) :
  records_kept d1 d2 -> records_kept d2 d3 -> records_kept d1 d3.
Proof.
  intros [N1 (rows1 & ex1 & E1 & F1)] [N2 (rows2 & ex2 & E2 & F2)].
  split; [congruence|].
  rewrite E1 in F2. apply Forall2_app_inv_l in F2.
  destruct F2 as (ra & rb & Fa & Fb & ->).
  exists ra, (rb ++ ex2). split.
  - rewrite E2. now rewrite app_assoc.
  - eapply rows_kept_trans; eassumption.
Qed.

Lemma update_kept (a : pystr) (f : db.Game -> db.Game) rows :
  (forall r, In r rows -> db.addr r = a -> row_kept r (f r)) ->
  Forall2 row_kept rows (db.update a f rows).
Proof.
  induction rows as [|r rows IH]; intros H; simpl; constructor.
  - destruct (pystr_eqb (db.addr r) a) eqn:E.
    + apply H; [now left | now apply pystr_eqb_eq].
    + apply row_kept_refl.
  - apply IH. intros r' Hin. apply H. now right.
Qed.

Lemma update_addrs (a : pystr) (f : db.Game -> db.Game) rows :
  (forall r, db.addr (f r) = db.addr r) ->
  map db.addr (db.update a f rows) = map db.addr rows.
Proof.
  intros Hf. induction rows as [|r rows IH]; simpl; [reflexivity|].
  rewrite IH. destruct (pystr_eqb (db.addr r) a); now rewrite ?Hf.
Qed.

Lemma set_board_kept d a v : records_kept d (db.set_board d a v).
Proof.
  split; [reflexivity|]. exists (db.games (db.set_board d a v)), [].
  rewrite app_nil_r. split; [reflexivity|]. simpl.
  apply update_kept. intros r _ _. unfold row_kept. simpl.
  repeat split; lia.
Qed.

Lemma set_board_unique d a v :
  unique_addrs d -> unique_addrs (db.set_board d a v).
Proof.
  unfold unique_addrs. simpl. now rewrite update_addrs.
Qed.

Lemma set_game_kept d a v s :
  (forall r, In r (db.games d) -> db.addr r = a -> db.score r <= s) ->
  records_kept d (db.set_game d a v s).
Proof.
  intros H. split; [reflexivity|].
  exists (db.games (db.set_game d a v s)), [].
  rewrite app_nil_r. split; [reflexivity|]. simpl.
  apply update_kept. intros r Hin Ha. unfold row_kept. simpl.
  repeat split. now apply H.
Qed.

Lemma set_game_unique d a v s :
  unique_addrs d -> unique_addrs (db.set_game d a v s).
Proof.
  unfold unique_addrs. simpl. now rewrite update_addrs.
Qed.

(** With unique addresses a record is known by its address. *)
Lemma unique_row d (r g : db.Game) :
  unique_addrs d -> In r (db.games d) -> In g (db.games d) ->
  db.addr r = db.addr g -> r = g.
Proof.
  unfold unique_addrs. induction (db.games d) as [|x rows IH]; simpl;
    intros Hu Hr Hg E; [contradiction|].
  inversion Hu as [|? ? Hx Hrest]; subst.
  destruct Hr as [->|Hr], Hg as [->|Hg]; auto.
  - exfalso. apply Hx. rewrite E. now apply in_map.
  - exfalso. apply Hx. rewrite <- E. now apply in_map.
Qed.

Section Kept.
Context {U : UnicodeTables} {B : BoardAPI}.

Lemma run_turn_keeps now g w :
  unique_addrs (store w) ->
  records_kept (store w) (store (snd (_run_turn now g w)))
  /\ unique_addrs (store (snd (_run_turn now g w))).
Proof.
  intros Hu. unfold _run_turn, bind, db_read, lift, db_write, ret, raise.
  destruct (db.get_game_by_gid (store w) g) as [r|] eqn:Hg; simpl;
    [|auto using records_kept_refl].
  destruct (truthy (db.board r)); simpl; [|auto using records_kept_refl].
  destruct (Board_load _) as [b|e]; simpl; [|auto using records_kept_refl].
  destruct (result b =? 1); simpl.
  - split; [|now apply set_game_unique].
    apply set_game_kept. intros r' Hin Ha.
    apply find_some in Hg. destruct Hg as [Hr _].
    rewrite (@unique_row _ _ _ Hu Hin Hr Ha).
    pose proof (bumped_above (get_score b now) (db.score r)) as Hb.
    unfold bumped in Hb. lia.
  - destruct (result b =? -1); simpl.
    + split; [apply set_board_kept | now apply set_board_unique].
    + auto using records_kept_refl.
Qed.

End Kept.

Lemma add_game_kept d a g s : records_kept d (db.add_game d a g s).
Proof.
  split; [reflexivity|].
  exists (db.games d), [db.mkGame a g (Some s) (db.new_score d)].
  split; [reflexivity | apply rows_kept_refl].
Qed.

Lemma add_game_unique d a g s :
  unique_addrs d -> db.get_game_by_addr d a = None ->
  unique_addrs (db.add_game d a g s).
Proof.
  unfold unique_addrs, db.get_game_by_addr. simpl. intros Hu Hn.
  rewrite map_app. simpl.
  apply NoDup_app; [exact Hu | repeat constructor; intros [] |].
  intros x Hx [<-|[]].
  apply in_map_iff in Hx. destruct Hx as (r & Hr & Hin).
  apply (find_none _ _ Hn) in Hin. simpl in Hin.
  rewrite Hr, pystr_eqb_refl in Hin. discriminate.
Qed.

Section KeptByHandlers.
Context {U : UnicodeTables} {B : BoardAPI}.

(** The turn run on a world whose storage already descends from [d]. *)
Lemma run_turn_keeps_from d now g w :
  records_kept d (store w) -> unique_addrs (store w) ->
  records_kept d (store (snd (_run_turn now g w)))
  /\ unique_addrs (store (snd (_run_turn now g w))).
Proof.
  intros Hk Hu. destruct (run_turn_keeps now g w Hu) as [H1 H2].
  split; [eapply records_kept_trans; eassumption | exact H2].
Qed.

Lemma filter_messages_keeps now msg w :
  unique_addrs (store w) ->
  records_kept (store w) (store (snd (filter_messages now msg w)))
  /\ unique_addrs (store (snd (filter_messages now msg w))).
Proof.
  intros Hu. unfold filter_messages, try_except_ValueError, bind, db_read,
    lift, db_write, replies_add, logger_exception.
  destruct (not_a_move (text msg)); [simpl; auto using records_kept_refl|].
  unfold bind, db_read.
  destruct (db.get_game_by_gid (store w) (chat_id msg)) as [r|];
    [|simpl; auto using records_kept_refl].
  destruct (db.board r) as [s|]; [|simpl; auto using records_kept_refl].
  unfold try_except_ValueError, bind, lift, db_write, replies_add,
    logger_exception.
  destruct (Board_load s) as [b|e];
    [|destruct e; simpl; auto using records_kept_refl].
  destruct (move b (text msg)) as [b1|e];
    [|destruct e; simpl; auto using records_kept_refl].
  match goal with
  | |- context [_run_turn now (chat_id msg) ?w1] =>
    destruct (@run_turn_keeps_from (store w) now (chat_id msg) w1) as [K1 K2];
      [ apply set_board_kept | now apply set_board_unique | ];
      destruct (_run_turn now (chat_id msg) w1) as [[t|e] w2]
  end; simpl in *; [auto|].
  destruct e; simpl; auto.
Qed.

Lemma mines_repeat_keeps now msg w :
  unique_addrs (store w) ->
  records_kept (store w) (store (snd (mines_repeat now msg w)))
  /\ unique_addrs (store (snd (mines_repeat now msg w))).
Proof.
  intros Hu. unfold mines_repeat, bind, db_read, replies_add.
  unfold bind, db_read.
  destruct (db.get_game_by_addr (store w) (sender_addr msg)) as [r|];
    [|simpl; auto using records_kept_refl].
  unfold bind, replies_add.
  destruct (run_turn_keeps now (db.gid r) w Hu) as [K1 K2].
  destruct (_run_turn now (db.gid r) w) as [[t|e] w2]; simpl in *; auto.
Qed.

Lemma mines_play_keeps rnd t0 now new_id msg w :
  unique_addrs (store w) ->
  records_kept (store w)
               (store (snd (mines_play rnd t0 now new_id msg w)))
  /\ unique_addrs (store (snd (mines_play rnd t0 now new_id msg w))).
Proof.
  intros Hu. unfold mines_play, bind, db_read, create_group, lift,
    db_write, replies_add.
  unfold bind, db_read.
  destruct (truthy (db.get_nick (store w) (sender_addr msg)));
    [|simpl; auto using records_kept_refl].
  cbn [negb].
  unfold bind, db_read.
  destruct (db.get_game_by_addr (store w) (sender_addr msg)) as [r|] eqn:Ha.
  - unfold bind, lift, db_write, replies_add.
    destruct (Board_new rnd t0) as [b|e];
      [|simpl; auto using records_kept_refl].
    match goal with
    | |- context [_run_turn now (db.gid r) ?w1] =>
      destruct (@run_turn_keeps_from (store w) now (db.gid r) w1)
        as [K1 K2];
        [ apply set_board_kept | now apply set_board_unique | ];
        destruct (_run_turn now (db.gid r) w1) as [[t|e] w2]
    end; simpl in *; auto.
  - unfold bind, create_group, lift, db_write, replies_add.
    destruct (Board_new rnd t0) as [b|e];
      [|simpl; auto using records_kept_refl].
    match goal with
    | |- context [_run_turn now new_id ?w1] =>
      destruct (@run_turn_keeps_from (store w) now new_id w1) as [K1 K2];
        [ apply add_game_kept | now apply add_game_unique | ];
        destruct (_run_turn now new_id w1) as [[t|e] w2]
    end; simpl in *; auto.
Qed.

(** X1.  Whatever the board does and however the handler ends, normally
    or by an exception, a handler keeps the records: with one record per
    address before, there is one record per address after; the nicks are
    the same; every record is still there with its address and its chat;
    and no high score is lower than it was. *)
Theorem handlers_keep_records rnd t0 now new_id msg w :
  unique_addrs (store w) ->
  (records_kept (store w) (store (snd (filter_messages now msg w)))
   /\ unique_addrs (store (snd (filter_messages now msg w))))
  /\ (records_kept (store w)
                   (store (snd (mines_play rnd t0 now new_id msg w)))
      /\ unique_addrs (store (snd (mines_play rnd t0 now new_id msg w))))
  /\ (records_kept (store w) (store (snd (mines_repeat now msg w)))
      /\ unique_addrs (store (snd (mines_repeat now msg w)))).
Proof.
  intros Hu. split; [now apply filter_messages_keeps|].
  split; [now apply mines_play_keeps | now apply mines_repeat_keeps].
Qed.

End KeptByHandlers.

Lemma handlers_keep_records_witness :
  records_kept (store (scene.playing 3)) (store (scene.after "C3" 3)).
Proof.
  destruct (@handlers_keep_records ascii_only game_Board [] 0 130 9
              (scene.says "C3") (scene.playing 3)) as [[H _] _].
  - repeat constructor. intros [].
  - exact H.
Defined.

(* ===================================================================== *)
(** * What [filter_messages] never does *)
(* ===================================================================== *)

Section FilterNever.
Context {U : UnicodeTables} {B : BoardAPI}.

(** X2.  [filter_messages] never ends with a [ValueError]: wherever in the
    [try] block it is raised, by the constructor, by the move or by the
    turn, the handler returns normally.  What it does raise is an
    exception of another kind. *)
Theorem filter_messages_never_raises_ValueError now msg w :
  fst (filter_messages now msg w) = Ok tt
  \/ fst (filter_messages now msg w) = Raise AssertionError
  \/ fst (filter_messages now msg w) = Raise OtherException.
Proof.
  unfold filter_messages, try_except_ValueError, bind, db_read, lift,
    db_write, replies_add, logger_exception, ret.
  destruct (not_a_move (text msg)); [now left|].
  destruct (db.get_game_by_gid (store w) (chat_id msg)) as [r|];
    [|now left].
  destruct (db.board r) as [s|]; [|now left].
  destruct (Board_load s) as [b|e]; [|destruct e; simpl; auto].
  destruct (move b (text msg)) as [b1|e]; [|destruct e; simpl; auto].
  destruct (_run_turn now (chat_id msg) _) as [[t|e] w2];
    [now left | destruct e; simpl; auto].
Qed.

(** X3.  A message changes the storage only when it is a move that the
    board of the chat accepted: the text passed the guard, the chat has a
    record with a board, the board loaded, and the move on it succeeded.
    In every other case, a failing move included, the storage is what it
    was. *)
Theorem storage_changes_only_on_accepted_move now msg w :
  store (snd (filter_messages now msg w)) <> store w ->
  exists r s b b1,
    not_a_move (text msg) = false
    /\ db.get_game_by_gid (store w) (chat_id msg) = Some r
    /\ db.board r = Some s
    /\ Board_load s = Ok b
    /\ move b (text msg) = Ok b1.
Proof.
  unfold filter_messages, try_except_ValueError, bind, db_read, lift,
    db_write, replies_add, logger_exception, ret.
  destruct (not_a_move (text msg)); [simpl; congruence|].
  destruct (db.get_game_by_gid (store w) (chat_id msg)) as [r|];
    [|simpl; congruence].
  destruct (db.board r) as [s|] eqn:Hb; [|simpl; congruence].
  destruct (Board_load s) as [b|e] eqn:El;
    [|destruct e; simpl; congruence].
  destruct (move b (text msg)) as [b1|e] eqn:Em;
    [|destruct e; simpl; congruence].
  intros _. exists r, s, b, b1. repeat split; auto.
Qed.

End FilterNever.

Lemma storage_changes_only_on_accepted_move_witness :
  exists r s b b1,
    @not_a_move ascii_only (text (scene.says "B1")) = false
    /\ db.get_game_by_gid (store (scene.playing 3)) 7 = Some r
    /\ db.board r = Some s
    /\ game.to_res (game.Import s) = Ok b
    /\ game.to_res (game.move b (lit "B1")) = Ok b1.
Proof.
  apply (@storage_changes_only_on_accepted_move ascii_only game_Board 130
           (scene.says "B1") (scene.playing 3)).
  vm_compute. discriminate.
Defined.

(* ===================================================================== *)
(** * The assertion of [_run_turn] *)
(* ===================================================================== *)

Lemma find_gid_last (g : Z) rows (x : db.Game) :
  db.gid x = g ->
  find (fun r => db.gid r =? g) (rows ++ [x]) <> None.
Proof.
  intros <-. induction rows as [|r rows IH]; simpl.
  - rewrite Z.eqb_refl. discriminate.
  - destruct (db.gid r =? db.gid x); [discriminate | exact IH].
Qed.

Lemma find_gid_of_member (r : db.Game) rows :
  In r rows -> find (fun x => db.gid x =? db.gid r) rows <> None.
Proof.
  intros Hin E. apply (find_none _ _ E) in Hin.
  rewrite Z.eqb_refl in Hin. discriminate.
Qed.

Section Assertion.
Context {U : UnicodeTables} {B : BoardAPI}.

(** The board of this section keeps [AssertionError] for the plugin. *)
Hypothesis load_no_assert : forall s, Board_load s <> Raise AssertionError.
Hypothesis move_no_assert : forall b t, move b t <> Raise AssertionError.
Hypothesis new_no_assert :
  forall rnd t, Board_new rnd t <> Raise AssertionError.

Lemma run_turn_found now g w :
  db.get_game_by_gid (store w) g <> None ->
  fst (_run_turn now g w) <> Raise AssertionError.
Proof.
  intros Hg. unfold _run_turn, bind, db_read, lift, db_write, ret, raise.
  destruct (db.get_game_by_gid (store w) g) as [r|]; [|congruence].
  destruct (truthy (db.board r)); simpl; [|discriminate].
  destruct (Board_load _) as [b|e] eqn:El; simpl.
  - destruct (result b =? 1); simpl; [discriminate|].
    destruct (result b =? -1); simpl; discriminate.
  - intros H. injection H as ->. now apply load_no_assert in El.
Qed.

(** X4.  The assertion [g is not None] of [_run_turn] holds in every call
    the handlers make: when the board itself raises no [AssertionError],
    none of [filter_messages], [mines_play] and [mines_repeat] ends with
    one, in any world and for any message. *)
Theorem run_turn_assertion_never_fails rnd t0 now new_id msg w :
  fst (filter_messages now msg w) <> Raise AssertionError
  /\ fst (mines_play rnd t0 now new_id msg w) <> Raise AssertionError
  /\ fst (mines_repeat now msg w) <> Raise AssertionError.
Proof.
  split; [|split].
  - unfold filter_messages, try_except_ValueError, bind, db_read, lift,
      db_write, replies_add, logger_exception, ret.
    destruct (not_a_move (text msg)); [discriminate|].
    destruct (db.get_game_by_gid (store w) (chat_id msg)) as [r|] eqn:Hg;
      [|discriminate].
    destruct (db.board r) as [s|]; [|discriminate].
    destruct (Board_load s) as [b|e] eqn:El.
    + destruct (move b (text msg)) as [b1|e] eqn:Em.
      * match goal with
        | |- context [_run_turn now (chat_id msg) ?w1] =>
          pose proof (@run_turn_found now (chat_id msg) w1) as Hf;
            destruct (_run_turn now (chat_id msg) w1) as [[t|e] w2]
        end; [discriminate|].
        simpl in Hf. destruct e; simpl; try discriminate.
        exfalso. apply Hf; [|reflexivity].
        erewrite get_by_gid_set_board by eassumption. discriminate.
      * destruct e; simpl; try discriminate.
        now apply move_no_assert in Em.
    + destruct e; simpl; try discriminate.
      now apply load_no_assert in El.
  - unfold mines_play, bind, db_read, create_group, lift, db_write,
      replies_add.
    destruct (truthy (db.get_nick (store w) (sender_addr msg)));
      [|discriminate].
    cbn [negb].
    destruct (db.get_game_by_addr (store w) (sender_addr msg))
      as [r|] eqn:Ha.
    + destruct (Board_new rnd t0) as [b|e] eqn:En;
        [|simpl; intros H; injection H as ->; now apply new_no_assert in En].
      match goal with
      | |- context [_run_turn now (db.gid r) ?w1] =>
        pose proof (@run_turn_found now (db.gid r) w1) as Hf;
          destruct (_run_turn now (db.gid r) w1) as [[t|e] w2]
      end; [discriminate|].
      simpl in Hf. simpl. intros H. injection H as ->.
      apply Hf; [|reflexivity].
      unfold db.get_game_by_gid, db.set_board. simpl.
      rewrite find_gid_update by reflexivity.
      apply find_some in Ha. destruct Ha as [Hin _].
      destruct (find (fun x => db.gid x =? db.gid r) (db.games (store w)))
        eqn:E; [discriminate|].
      exfalso. revert E. now apply find_gid_of_member.
    + destruct (Board_new rnd t0) as [b|e] eqn:En;
        [|simpl; intros H; injection H as ->; now apply new_no_assert in En].
      match goal with
      | |- context [_run_turn now new_id ?w1] =>
        pose proof (@run_turn_found now new_id w1) as Hf;
          destruct (_run_turn now new_id w1) as [[t|e] w2]
      end; [discriminate|].
      simpl in Hf. simpl. intros H. injection H as ->.
      apply Hf; [|reflexivity].
      unfold db.get_game_by_gid, db.add_game. simpl.
      now apply find_gid_last.
  - unfold mines_repeat, bind, db_read, replies_add.
    destruct (db.get_game_by_addr (store w) (sender_addr msg))
      as [r|] eqn:Ha; [|discriminate].
    pose proof (@run_turn_found now (db.gid r) w) as Hf.
    destruct (_run_turn now (db.gid r) w) as [[t|e] w2]; [discriminate|].
    simpl in *. intros H. injection H as ->. apply Hf; [|reflexivity].
    apply find_some in Ha. destruct Ha as [Hin _].
    now apply find_gid_of_member.
Qed.

End Assertion.

Lemma game_never_asserts {A} (r : game.Result A) :
  game.to_res r <> Raise AssertionError.
Proof. destruct r as [a|e]; [discriminate | destruct e; discriminate]. Qed.

Lemma run_turn_assertion_never_fails_witness :
  fst (@filter_messages ascii_only game_Board 130 (scene.says "C3")
                        (scene.playing 3))
  <> Raise AssertionError.
Proof.
  apply (@run_turn_assertion_never_fails ascii_only game_Board
           (fun s => game_never_asserts _)
           (fun b t => game_never_asserts _)
           (fun rnd t => game_never_asserts _)
           [] 0 130 9 (scene.says "C3") (scene.playing 3)).
Defined.

(* ===================================================================== *)
(** * After the end of a game *)
(* ===================================================================== *)

Section AfterTheEnd.
Context {U : UnicodeTables} {B : BoardAPI}.



End AfterTheEnd.


(* ===================================================================== *)
(** * Starting a game *)
(* ===================================================================== *)

Lemma find_gid_fresh (g : Z) rows (x : db.Game) :
  find (fun r => db.gid r =? g) rows = None ->
  db.gid x = g ->
  find (fun r => db.gid r =? g) (rows ++ [x]) = Some x.
Proof.
  intros Hn <-. induction rows as [|r rows IH]; simpl in *.
  - now rewrite Z.eqb_refl.
  - destruct (db.gid r =? db.gid x); [discriminate | auto].
Qed.

Lemma find_addr_fresh (a : pystr) rows (x : db.Game) :
  find (fun r => pystr_eqb (db.addr r) a) rows = None ->
  db.addr x = a ->
  find (fun r => pystr_eqb (db.addr r) a) (rows ++ [x]) = Some x.
Proof.
  intros Hn <-. induction rows as [|r rows IH]; simpl in *.
  - now rewrite pystr_eqb_refl.
  - destruct (pystr_eqb (db.addr r) (db.addr x)); [discriminate | auto].
Qed.

(** With one record per chat, the record of a player is the one found
    under its chat. *)
Lemma find_gid_unique (rows : list db.Game) (r : db.Game) :
  NoDup (map db.gid rows) -> In r rows ->
  find (fun x => db.gid x =? db.gid r) rows = Some r.
Proof.
  induction rows as [|x rows IH]; simpl; intros Hu Hin; [contradiction|].
  inversion Hu as [|? ? Hx Hrest]; subst.
  destruct Hin as [->|Hin].
  - now rewrite Z.eqb_refl.
  - destruct (Z.eqb_spec (db.gid x) (db.gid r)) as [E|_]; [|auto].
    exfalso. apply Hx. rewrite E. now apply in_map.
Qed.

Lemma get_by_gid_of_addr d a r :
  unique_gids d -> db.get_game_by_addr d a = Some r ->
  db.get_game_by_gid d (db.gid r) = Some r.
Proof.
  intros Hu Ha. apply find_some in Ha. destruct Ha as [Hin _].
  now apply find_gid_unique.
Qed.

Lemma update_gids (a : pystr) (f : db.Game -> db.Game) rows :
  (forall r, db.gid (f r) = db.gid r) ->
  map db.gid (db.update a f rows) = map db.gid rows.
Proof.
  intros Hf. induction rows as [|r rows IH]; simpl; [reflexivity|].
  rewrite IH. destruct (pystr_eqb (db.addr r) a); now rewrite ?Hf.
Qed.

Lemma gid_not_among (d : db.DBManager) (g : Z) :
  db.get_game_by_gid d g = None -> ~ In g (map db.gid (db.games d)).
Proof.
  intros Hn Hin. apply in_map_iff in Hin. destruct Hin as (r & Hr & Hin).
  apply (find_none _ _ Hn) in Hin. simpl in Hin.
  rewrite Hr, Z.eqb_refl in Hin. discriminate.
Qed.

Section OneRecordPerChat.
Context {U : UnicodeTables} {B : BoardAPI}.

(** No handler changes the chat of a record; only the first game of a
    player adds one, for the group just made. *)
Lemma run_turn_gids now g w :
  map db.gid (db.games (store (snd (_run_turn now g w))))
  = map db.gid (db.games (store w)).
Proof.
  unfold _run_turn, bind, db_read, lift, db_write, ret, raise.
  destruct (db.get_game_by_gid (store w) g) as [r|]; simpl; [|reflexivity].
  destruct (truthy (db.board r)); simpl; [|reflexivity].
  destruct (Board_load _) as [b|e]; simpl; [|reflexivity].
  destruct (result b =? 1); simpl.
  - now apply update_gids.
  - destruct (result b =? -1); simpl; [now apply update_gids | reflexivity].
Qed.

Lemma filter_messages_gids now msg w :
  map db.gid (db.games (store (snd (filter_messages now msg w))))
  = map db.gid (db.games (store w)).
Proof.
  unfold filter_messages, try_except_ValueError, bind, db_read,
    lift, db_write, replies_add, logger_exception.
  destruct (not_a_move (text msg)); [reflexivity|].
  unfold bind, db_read.
  destruct (db.get_game_by_gid (store w) (chat_id msg)) as [r|];
    [|reflexivity].
  destruct (db.board r) as [s|]; [|reflexivity].
  unfold try_except_ValueError, bind, lift, db_write, replies_add,
    logger_exception.
  destruct (Board_load s) as [b|e]; [|destruct e; reflexivity].
  destruct (move b (text msg)) as [b1|e]; [|destruct e; reflexivity].
  match goal with
  | |- context [_run_turn now (chat_id msg) ?w1] =>
    pose proof (run_turn_gids now (chat_id msg) w1) as K;
      destruct (_run_turn now (chat_id msg) w1) as [[t|e] w2]
  end; simpl in *.
  - rewrite K. now apply update_gids.
  - destruct e; simpl; rewrite K; now apply update_gids.
Qed.

Lemma mines_repeat_gids now msg w :
  map db.gid (db.games (store (snd (mines_repeat now msg w))))
  = map db.gid (db.games (store w)).
Proof.
  unfold mines_repeat, bind, db_read, replies_add.
  unfold bind, db_read.
  destruct (db.get_game_by_addr (store w) (sender_addr msg)) as [r|];
    [|reflexivity].
  unfold bind, replies_add.
  pose proof (run_turn_gids now (db.gid r) w) as K.
  destruct (_run_turn now (db.gid r) w) as [[t|e] w2]; simpl in *; exact K.
Qed.

Lemma mines_play_gids rnd t0 now new_id msg w :
  map db.gid (db.games (store (snd (mines_play rnd t0 now new_id msg w))))
  = map db.gid (db.games (store w))
  \/ map db.gid (db.games (store (snd (mines_play rnd t0 now new_id msg w))))
     = map db.gid (db.games (store w)) ++ [new_id].
Proof.
  unfold mines_play, bind, db_read, create_group, lift, db_write,
    replies_add.
  unfold bind, db_read.
  destruct (truthy (db.get_nick (store w) (sender_addr msg)));
    [|now left].
  cbn [negb].
  unfold bind, db_read.
  destruct (db.get_game_by_addr (store w) (sender_addr msg)) as [r|].
  - left. unfold bind, lift, db_write, replies_add.
    destruct (Board_new rnd t0) as [b|e]; [|reflexivity].
    match goal with
    | |- context [_run_turn now (db.gid r) ?w1] =>
      pose proof (run_turn_gids now (db.gid r) w1) as K;
        destruct (_run_turn now (db.gid r) w1) as [[t|e] w2]
    end; simpl in *; rewrite K; now apply update_gids.
  - unfold bind, create_group, lift, db_write, replies_add.
    destruct (Board_new rnd t0) as [b|e]; [|now left].
    right.
    match goal with
    | |- context [_run_turn now new_id ?w1] =>
      pose proof (run_turn_gids now new_id w1) as K;
        destruct (_run_turn now new_id w1) as [[t|e] w2]
    end; simpl in *; rewrite K, map_app; reflexivity.
Qed.

(** One record per chat is an invariant of the three handlers, as long
    as the group [bot.create_group] makes is not yet the chat of a
    record. *)
Lemma handlers_keep_one_record_per_chat rnd t0 now new_id msg w :
  unique_gids (store w) ->
  unique_gids (store (snd (filter_messages now msg w)))
  /\ unique_gids (store (snd (mines_repeat now msg w)))
  /\ (db.get_game_by_gid (store w) new_id = None ->
      unique_gids (store (snd (mines_play rnd t0 now new_id msg w)))).
Proof.
  unfold unique_gids. intros Hu. repeat split.
  - now rewrite filter_messages_gids.
  - now rewrite mines_repeat_gids.
  - intros Hn.
    destruct (mines_play_gids rnd t0 now new_id msg w) as [E|E];
      rewrite E; [exact Hu|].
    apply NoDup_app; [exact Hu | repeat constructor; intros [] |].
    intros x Hx [<-|[]]. eapply gid_not_among; eassumption.
Qed.

End OneRecordPerChat.

Section Starting.
Context {U : UnicodeTables} {B : BoardAPI}.

(** The world after the first [/mines_play] of a player. *)
Lemma mines_play_first_world rnd t0 now new_id msg w b b2 :
  truthy (db.get_nick (store w) (sender_addr msg)) = true ->
  db.get_game_by_addr (store w) (sender_addr msg) = None ->
  db.get_game_by_gid (store w) new_id = None ->
  Board_new rnd t0 = Ok b ->
  export b <> [] -> Board_load (export b) = Ok b2 ->
  result b2 <> 1 -> result b2 <> -1 ->
  mines_play rnd t0 now new_id msg w
  = (Ok tt,
     mkWorld (db.add_game (store w) (sender_addr msg) new_id (export b))
             (groups w ++ [mkGroup new_id group_title [sender_addr msg]])
             (outbox w
              ++ [mkReply (greeting (sender_name msg) ++ Board_str b2)
                          (Some new_id)])
             (logged w)).
Proof.
  intros Hn Ha Hg Hb He Hl H1 H2. unfold mines_play.
  unfold bind at 1. unfold db_read at 1. rewrite Hn. cbn [negb].
  unfold bind at 1. unfold db_read at 1. rewrite Ha.
  unfold bind, create_group, lift, db_write, replies_add. rewrite Hb.
  erewrite run_turn_in_progress
    with (r := db.mkGame (sender_addr msg) new_id (Some (export b))
                         (db.new_score (store w)));
    [ reflexivity | | reflexivity | assumption | eassumption
    | assumption | assumption ].
  unfold db.get_game_by_gid, db.add_game. simpl.
  now apply find_gid_fresh.
Qed.

(** The world after [/mines_play] of a player who has a record. *)
Lemma mines_play_again_world rnd t0 now new_id msg w r b b2 :
  truthy (db.get_nick (store w) (sender_addr msg)) = true ->
  db.get_game_by_addr (store w) (sender_addr msg) = Some r ->
  db.get_game_by_gid (store w) (db.gid r) = Some r ->
  Board_new rnd t0 = Ok b ->
  export b <> [] -> Board_load (export b) = Ok b2 ->
  result b2 <> 1 -> result b2 <> -1 ->
  mines_play rnd t0 now new_id msg w
  = (Ok tt,
     mkWorld (db.set_board (store w) (db.addr r) (Some (export b)))
             (groups w)
             (outbox w
              ++ [mkReply (game_started ++ Board_str b2)
                          (Some (db.gid r))])
             (logged w)).
Proof.
  intros Hn Ha Hg Hb He Hl H1 H2. unfold mines_play.
  unfold bind at 1. unfold db_read at 1. rewrite Hn. cbn [negb].
  unfold bind at 1. unfold db_read at 1. rewrite Ha.
  unfold bind, lift, db_write, replies_add. rewrite Hb.
  erewrite run_turn_in_progress
    with (r := db.mkGame (db.addr r) (db.gid r) (Some (export b))
                         (db.score r));
    [ unfold game_started; rewrite <- !app_assoc; reflexivity
    | | reflexivity | assumption | eassumption | assumption | assumption ].
  simpl. now apply get_by_gid_set_board.
Qed.

(** X6.  The first [/mines_play] of a player with a nick, when the chat
    id of the new group is not the chat of any record and [Board()]
    returns a board whose export is not empty and loads again as a board
    in progress: one group is made, titled with the bomb and holding the
    player alone; one record is added after the others, for the player,
    in that group, with the export of the new board; the records that
    were there are untouched; and the one reply goes to the new group,
    the greeting with the player's name followed by the board.  The high
    score of the new record is the storage's affair: the call passes
    none. *)
Theorem first_game_makes_group_and_record rnd t0 now new_id msg w b b2 :
  truthy (db.get_nick (store w) (sender_addr msg)) = true ->
  db.get_game_by_addr (store w) (sender_addr msg) = None ->
  db.get_game_by_gid (store w) new_id = None ->
  Board_new rnd t0 = Ok b ->
  export b <> [] -> Board_load (export b) = Ok b2 ->
  result b2 <> 1 -> result b2 <> -1 ->
  let w' := snd (mines_play rnd t0 now new_id msg w) in
  groups w' = groups w ++ [mkGroup new_id group_title [sender_addr msg]]
  /\ (exists r,
        db.games (store w') = db.games (store w) ++ [r]
        /\ db.addr r = sender_addr msg
        /\ db.gid r = new_id
        /\ db.board r = Some (export b)
        /\ db.get_game_by_addr (store w') (sender_addr msg) = Some r
        /\ db.get_game_by_gid (store w') new_id = Some r)
  /\ outbox w'
     = outbox w
       ++ [mkReply (greeting (sender_name msg) ++ Board_str b2)
                   (Some new_id)].
Proof.
  intros Hn Ha Hg Hb He Hl H1 H2 w'. subst w'.
  erewrite mines_play_first_world by eassumption.
  cbn [snd store groups outbox]. split; [reflexivity|].
  split; [|reflexivity].
  exists (db.mkGame (sender_addr msg) new_id (Some (export b))
                    (db.new_score (store w))).
  repeat split.
  - unfold db.get_game_by_addr, db.add_game. simpl.
    now apply find_addr_fresh.
  - unfold db.get_game_by_gid, db.add_game. simpl.
    now apply find_gid_fresh.
Qed.

(** X7.  [/mines_play] of a player with a nick who has a record, when no
    two records share a chat and [Board()] returns a board whose export
    is not empty and loads again as a board in progress, starts over in
    the chat of the record: no group is made, no record is added, the
    record gets the export of the new board and keeps its chat and its
    high score, and the one reply, "Game started!" followed by the
    board, goes to that chat. *)
Theorem new_game_keeps_chat_and_score rnd t0 now new_id msg w r b b2 :
  truthy (db.get_nick (store w) (sender_addr msg)) = true ->
  unique_gids (store w) ->
  db.get_game_by_addr (store w) (sender_addr msg) = Some r ->
  Board_new rnd t0 = Ok b ->
  export b <> [] -> Board_load (export b) = Ok b2 ->
  result b2 <> 1 -> result b2 <> -1 ->
  let w' := snd (mines_play rnd t0 now new_id msg w) in
  groups w' = groups w
  /\ db.get_game_by_addr (store w') (sender_addr msg)
     = Some (db.mkGame (db.addr r) (db.gid r) (Some (export b))
                       (db.score r))
  /\ List.length (db.games (store w')) = List.length (db.games (store w))
  /\ outbox w'
     = outbox w
       ++ [mkReply (game_started ++ Board_str b2) (Some (db.gid r))].
Proof.
  intros Hn Hu Ha Hb He Hl H1 H2 w'. subst w'.
  pose proof (get_by_gid_of_addr _ Hu Ha) as Hg.
  erewrite mines_play_again_world by eassumption.
  cbn [snd store groups outbox]. repeat split.
  - assert (db.addr r = sender_addr msg) as Hr.
    { unfold db.get_game_by_addr in Ha. apply find_some in Ha.
      destruct Ha as [_ Ha]. now apply pystr_eqb_eq in Ha. }
    rewrite Hr. rewrite get_by_addr_set_board, Ha. simpl.
    rewrite Hr. reflexivity.
  - simpl. unfold db.update. now rewrite length_map.
Qed.

(** X8.  Playing and asking again compose.  Take a [/mines_play] of a
    player with a nick for which [Board()] returns a board whose export
    is not empty and loads again as a board in progress.  If the player
    had no record and the id of the new group is not the chat of any
    record, or if the player had a record and no two records share a
    chat, then [/mines_repeat] of the same sender answers in the chat of
    the game with the rendering [/mines_play] sent after its head line,
    and changes nothing else. *)
Theorem repeat_shows_the_started_board rnd t0 now new_id msg w b b2 :
  truthy (db.get_nick (store w) (sender_addr msg)) = true ->
  Board_new rnd t0 = Ok b ->
  export b <> [] -> Board_load (export b) = Ok b2 ->
  result b2 <> 1 -> result b2 <> -1 ->
  let w' := snd (mines_play rnd t0 now new_id msg w) in
  (db.get_game_by_addr (store w) (sender_addr msg) = None ->
   db.get_game_by_gid (store w) new_id = None ->
   forall now',
     mines_repeat now' msg w'
     = (Ok tt, answered w' (Board_str b2) (Some new_id)))
  /\ (forall r,
        db.get_game_by_addr (store w) (sender_addr msg) = Some r ->
        unique_gids (store w) ->
        forall now',
          mines_repeat now' msg w'
          = (Ok tt, answered w' (Board_str b2) (Some (db.gid r)))).
Proof.
  intros Hn Hb He Hl H1 H2 w'. subst w'. split.
  - intros Ha Hg now'.
    erewrite mines_play_first_world by eassumption. cbn [snd].
    unfold mines_repeat. unfold bind at 1. unfold db_read at 1.
    cbn [store].
    replace (db.get_game_by_addr
               (db.add_game (store w) (sender_addr msg) new_id (export b))
               (sender_addr msg))
      with (Some (db.mkGame (sender_addr msg) new_id (Some (export b))
                            (db.new_score (store w)))).
    2:{ symmetry. unfold db.get_game_by_addr, db.add_game. simpl.
        now apply find_addr_fresh. }
    cbn [db.gid]. unfold bind.
    erewrite run_turn_in_progress
      with (r := db.mkGame (sender_addr msg) new_id (Some (export b))
                           (db.new_score (store w)));
      [ reflexivity | | reflexivity | assumption | eassumption
      | assumption | assumption ].
    unfold db.get_game_by_gid, db.add_game. simpl.
    now apply find_gid_fresh.
  - intros r Ha Hu now'.
    pose proof (get_by_gid_of_addr _ Hu Ha) as Hg.
    erewrite mines_play_again_world by eassumption. cbn [snd].
    assert (db.addr r = sender_addr msg) as Hr.
    { unfold db.get_game_by_addr in Ha. apply find_some in Ha.
      destruct Ha as [_ Ha]. now apply pystr_eqb_eq in Ha. }
    rewrite Hr.
    unfold mines_repeat. unfold bind at 1. unfold db_read at 1.
    cbn [store]. rewrite get_by_addr_set_board, Ha.
    cbn [option_map db.gid]. unfold bind.
    erewrite run_turn_in_progress
      with (r := db.mkGame (db.addr r) (db.gid r) (Some (export b))
                           (db.score r));
      [ reflexivity | | reflexivity | assumption | eassumption
      | assumption | assumption ].
    simpl. rewrite <- Hr. now apply get_by_gid_set_board.
Qed.

End Starting.

Lemma first_game_makes_group_and_record_witness :
  groups (scene2.plays scene2.registered)
  = [mkGroup 9 group_title [scene.ann]]
  /\ map (fun r => (db.addr r, db.gid r, db.board r))
         (db.games (store (scene2.plays scene2.registered)))
     = [(scene.ann, 9, Some (game.Export scene2.fresh))].
Proof.
  destruct (@first_game_makes_group_and_record game_Board
              [3; 1; 4]%nat 50 60 9 (scene.says "/mines_play")
              scene2.registered scene2.fresh scene2.fresh)
    as (H1 & (r & Hr & Ha & Hg & Hb & _) & _).
  - reflexivity.
  - reflexivity.
  - reflexivity.
  - vm_compute. reflexivity.
  - intro H. vm_compute in H. discriminate H.
  - vm_compute. reflexivity.
  - vm_compute. discriminate.
  - vm_compute. discriminate.
  - split; [exact H1|].
    unfold scene2.plays. rewrite Hr. cbn [map app].
    change (db.games (store scene2.registered)) with (@nil db.Game).
    cbn [map app]. rewrite Ha, Hg, Hb. reflexivity.
Defined.

Lemma new_game_keeps_chat_and_score_witness :
  db.get_game_by_addr (store (scene2.plays (scene.playing 3))) scene.ann
  = Some (db.mkGame scene.ann 7 (Some (game.Export scene2.fresh)) 3).
Proof.
  destruct (@new_game_keeps_chat_and_score game_Board
              [3; 1; 4]%nat 50 60 9 (scene.says "/mines_play")
              (scene.playing 3)
              (db.mkGame scene.ann 7 (Some (game.Export scene.corner_board))
                         3)
              scene2.fresh scene2.fresh)
    as (_ & H & _).
  - reflexivity.
  - repeat constructor. intros [].
  - reflexivity.
  - vm_compute. reflexivity.
  - intro H. vm_compute in H. discriminate H.
  - vm_compute. reflexivity.
  - vm_compute. discriminate.
  - vm_compute. discriminate.
  - exact H.
Defined.

Lemma repeat_shows_the_started_board_witness :
  @mines_repeat game_Board 70 (scene.says "/mines_play")
                (scene2.plays scene2.registered)
  = (Ok tt,
     answered (scene2.plays scene2.registered)
              (game.RenderCurrent scene2.fresh) (Some 9)).
Proof.
  destruct (@repeat_shows_the_started_board game_Board
              [3; 1; 4]%nat 50 60 9 (scene.says "/mines_play")
              scene2.registered scene2.fresh scene2.fresh)
    as [H _].
  - reflexivity.
  - vm_compute. reflexivity.
  - intro H. vm_compute in H. discriminate H.
  - vm_compute. reflexivity.
  - vm_compute. discriminate.
  - vm_compute. discriminate.
  - apply H; reflexivity.
Defined.

(** The hypothesis on the chats is needed.  With two records in one
    chat, the turn after [/mines_play] of the second player is run on
    the record found first under that chat: the reply shows the board of
    the other player, not the one just started. *)
Example shared_chat_shows_the_other_board :
  let d := db.mkDB [db.mkGame scene.bea 7
                              (Some (game.Export scene.corner_board)) 0;
                    db.mkGame scene.ann 7 None 3]
                   [(scene.ann, lit "ann")] [] 0 in
  map reply_text (outbox (scene2.plays (mkWorld d [] [] [])))
  = [game_started ++ game.RenderCurrent scene.corner_board]
  /\ game.RenderCurrent scene.corner_board
     <> game.RenderCurrent scene2.fresh.
Proof.
  split; [vm_compute; reflexivity|].
  intro H. vm_compute in H. discriminate H.
Qed.

(* ===================================================================== *)
(** * The nicks [nick_re] accepts *)
(* ===================================================================== *)

Lemma in_set_remainders (p : codepoint -> bool) (s rest : pystr) :
  In rest (remainders (In_set p) s)
  <-> exists c, s = c :: rest /\ p c = true.
Proof.
  simpl. destruct s as [|c s']; [split; [intros [] | intros (c & H & _); discriminate H]|].
  destruct (p c) eqn:E; simpl; split.
  - intros [<-|[]]. eauto.
  - intros (c' & H & _). injection H as _ <-. now left.
  - intros [].
  - intros (c' & H & Hp). injection H as <- _. congruence.
Qed.

(** A bounded repetition of a set reads a run of [lo] to [hi] members of
    the set. *)
Lemma iterate_set (p : codepoint -> bool) (lo hi : nat) (s rest : pystr) :
  In rest (iterate (remainders (In_set p)) lo hi s)
  <-> exists body,
        s = body ++ rest
        /\ (lo <= List.length body <= hi)%nat
        /\ forallb p body = true.
Proof.
  revert lo s. induction hi as [|hi IH]; intros lo s.
  - simpl. destruct lo; simpl; split.
    + intros [<-|[]]. exists []. repeat split; auto.
    + intros (body & -> & [_ Hl] & _). destruct body; [now left|].
      simpl in Hl. lia.
    + intros [].
    + intros (body & _ & [Hl1 Hl2] & _). lia.
  - cbn [iterate]. rewrite in_app_iff, in_flat_map. split.
    + intros [(s' & Hs' & Hin) | Hz].
      * apply in_set_remainders in Hs'. destruct Hs' as (c & -> & Hc).
        apply IH in Hin. destruct Hin as (body & -> & [Hl1 Hl2] & Hp).
        exists (c :: body). simpl. rewrite Hc, Hp.
        repeat split; auto; lia.
      * destruct lo; [|destruct Hz]. destruct Hz as [<-|[]].
        exists []. simpl. repeat split; auto; lia.
    + intros (body & -> & [Hl1 Hl2] & Hp). destruct body as [|c body].
      * right. destruct lo; [now left | simpl in Hl1; lia].
      * left. simpl in Hp. apply andb_prop in Hp. destruct Hp as [Hc Hp].
        exists (body ++ rest). split.
        -- apply in_set_remainders. exists c. auto.
        -- apply IH. exists body. simpl in Hl1, Hl2.
           repeat split; auto; lia.
Qed.

Lemma end_of_string_remainders (s x : pystr) :
  In x (remainders End_of_string s) <-> x = s /\ (s = [] \/ s = [10%N]).
Proof.
  simpl. destruct s as [|c [|d s']].
  - split; [intros [<-|[]]; auto | intros [-> _]; now left].
  - destruct (N.eqb_spec c 10) as [->|Hc]; split.
    + intros [<-|[]]; auto.
    + intros [-> _]. now left.
    + intros [].
    + intros [_ [H|H]]; [discriminate H | injection H as H; contradiction].
  - split; [intros [] | intros [_ [H|H]]; discriminate H].
Qed.

Lemma re_match_true (r : regex) (s : pystr) :
  re_match r s = true <-> exists x, In x (remainders r s).
Proof.
  unfold re_match. destruct (remainders r s) as [|x l]; split.
  - discriminate.
  - intros (x & []).
  - intros _. exists x. now left.
  - reflexivity.
Qed.

Lemma nick_re_match_iff (s : pystr) :
  re_match nick_re s = true
  <-> exists body,
        (s = body \/ s = body ++ [10%N])
        /\ (1 <= List.length body <= 16)%nat
        /\ forallb nick_set body = true.
Proof.
  rewrite re_match_true. unfold nick_re. cbn [remainders]. split.
  - intros (x & Hx). apply in_flat_map in Hx.
    destruct Hx as (rest & Hrest & Hend).
    apply iterate_set in Hrest. destruct Hrest as (body & -> & Hl & Hp).
    apply (end_of_string_remainders rest x) in Hend.
    destruct Hend as [_ [->| ->]]; exists body.
    + rewrite app_nil_r. auto.
    + auto.
  - intros (body & Hs & Hl & Hp).
    assert (exists rest, s = body ++ rest /\ (rest = [] \/ rest = [10%N]))
      as (rest & -> & Hrest).
    { destruct Hs as [->| ->]; [exists [] | exists [10%N]]; split; auto.
      now rewrite app_nil_r. }
    exists rest. apply in_flat_map. exists rest. split.
    + apply iterate_set. exists body. auto.
    + apply (end_of_string_remainders rest rest). auto.
Qed.

Lemma nick_set_no_newline (s : pystr) :
  forallb nick_set s = true -> ~ In 10%N s.
Proof.
  intros H Hin. rewrite forallb_forall in H. apply H in Hin.
  vm_compute in Hin. discriminate.
Qed.

(** On a string without a newline the match is a test of the length and
    of the characters. *)
Lemma nick_re_match_line (s : pystr) :
  ~ In 10%N s ->
  re_match nick_re s
  = (1 <=? List.length s)%nat && (List.length s <=? 16)%nat
    && forallb nick_set s.
Proof.
  intros Hs. apply eq_true_iff_eq. rewrite nick_re_match_iff.
  rewrite !andb_true_iff, !Nat.leb_le. split.
  - intros (body & [->| ->] & Hl & Hp); [tauto|].
    exfalso. apply Hs. apply in_or_app. right. now left.
  - intros [[H1 H2] Hp]. exists s. auto.
Qed.

(** X9.  [nick_re.match] accepts exactly the strings made of one to
    sixteen characters among the hyphen, the ASCII letters, the ASCII
    digits and the underscore, and those strings followed by one final
    newline.  So a run of sixteen such characters is a nick, although the
    reply to a bad nick asks for less than sixteen, and a run of
    seventeen or more is not. *)
Theorem nick_re_accepts (s : pystr) :
  (re_match nick_re s = true
   <-> exists body,
         (s = body \/ s = body ++ [10%N])
         /\ (1 <= List.length body <= 16)%nat
         /\ forallb nick_set body = true)
  /\ (forallb nick_set s = true ->
      (List.length s = 16%nat -> re_match nick_re s = true)
      /\ ((17 <= List.length s)%nat -> re_match nick_re s = false)).
Proof.
  split; [apply nick_re_match_iff|].
  intros Hp. rewrite nick_re_match_line by now apply nick_set_no_newline.
  rewrite Hp.
  split; intros Hl.
  - rewrite Hl. reflexivity.
  - destruct (Nat.leb_spec (List.length s) 16); [lia|].
    now rewrite andb_false_r.
Qed.

Lemma nick_re_accepts_witness :
  re_match nick_re (lit "1234567890123456") = true.
Proof.
  destruct (nick_re_accepts (lit "1234567890123456")) as [_ H].
  destruct H as [H _]; [reflexivity|]. apply H. reflexivity.
Defined.

(* ===================================================================== *)
(** * Nicks *)
(* ===================================================================== *)

Section Words.
Context {S : SpaceTable}.

(** The words [split] finds are not empty and have no whitespace in
    them. *)
Lemma split_words_clean (s cur w : pystr) :
  (forall c, In c cur -> c_isspace c = false) ->
  In w (split_words cur s) ->
  w <> [] /\ forall c, In c w -> c_isspace c = false.
Proof.
  revert cur. induction s as [|c s IH]; intros cur Hcur Hin; simpl in Hin.
  - destruct cur; [destruct Hin|]. destruct Hin as [<-|[]].
    split; [discriminate | exact Hcur].
  - destruct (c_isspace c) eqn:Ec.
    + destruct cur as [|x cur].
      * apply (IH []); [intros ? []|exact Hin].
      * destruct Hin as [<-|Hin]; [split; [discriminate | exact Hcur]|].
        apply (IH []); [intros ? []|exact Hin].
    + apply (IH (cur ++ [c])); [|exact Hin].
      intros x Hx. apply in_app_or in Hx.
      destruct Hx as [Hx|[<-|[]]]; auto.
Qed.

Lemma split_clean (s w : pystr) :
  In w (split s) -> w <> [] /\ forall c, In c w -> c_isspace c = false.
Proof. apply split_words_clean. intros ? []. Qed.

Lemma join_chars (sep : pystr) (l : list pystr) (c : codepoint) :
  In c (join sep l) -> In c sep \/ exists w, In w l /\ In c w.
Proof.
  induction l as [|x l IH]; simpl; [intros []|].
  destruct l as [|y l].
  - intros H. right. exists x. auto.
  - intros H. apply in_app_or in H. destruct H as [H|H].
    + right. exists x. auto.
    + apply in_app_or in H. destruct H as [H|H]; [now left|].
      destruct (IH H) as [H'|(w & Hw & Hc)]; [now left|].
      right. exists w. split; [now right | exact Hc].
Qed.

Lemma join_has_sep (sep : pystr) (l : list pystr) (c : codepoint) :
  In c sep -> (2 <= List.length l)%nat -> In c (join sep l).
Proof.
  intros Hc Hl. destruct l as [|x [|y l]]; simpl in Hl; try lia.
  cbn [join]. apply in_or_app. right. apply in_or_app. now left.
Qed.

(** The normalised payload has no newline in it. *)
Lemma normalised_no_newline (payload : pystr) :
  ~ In 10%N (join (lit " ") (split payload)).
Proof.
  intros H. apply join_chars in H. destruct H as [H|(w & Hw & Hc)].
  - simpl in H. destruct H as [H|[]]. discriminate H.
  - apply split_clean in Hw. destruct Hw as [_ Hw].
    apply Hw in Hc. vm_compute in Hc. discriminate.
Qed.

(** X10.  [mines_nick] with a payload stores a nick only when the payload,
    with its whitespace normalised, is one to sixteen characters of the
    nick set and no address has that nick; then the sender's nick becomes
    that string and the reply shows it.  A string that fails the test is
    answered with the invalid-nick text, a nick somebody has with the
    already-taken text, and in both cases nothing is stored. *)
Theorem mines_nick_stores_only_valid_free_nicks payload msg w :
  payload <> [] ->
  let n := join (lit " ") (split payload) in
  mines_nick payload msg w
  = (Ok tt,
     if (1 <=? List.length n)%nat && (List.length n <=? 16)%nat
        && forallb nick_set n
     then if truthy (db.get_addr (store w) n)
          then answered w nick_taken None
          else mkWorld (db.set_nick (store w) (sender_addr msg) n)
                       (groups w)
                       (outbox w ++ [mkReply (nick_is n) None])
                       (logged w)
     else answered w invalid_nick None).
Proof.
  intros Hp n. unfold mines_nick.
  destruct payload as [|c payload]; [congruence|].
  rewrite nick_re_match_line by apply normalised_no_newline.
  fold n.
  destruct ((1 <=? List.length n)%nat && (List.length n <=? 16)%nat
            && forallb nick_set n); cbn [negb]; [|reflexivity].
  unfold bind, db_read, db_write, replies_add.
  destruct (truthy (db.get_addr (store w) n)); reflexivity.
Qed.

(** X11.  A payload of several words is never a nick, and neither is a
    payload of whitespace alone: the words are joined by single spaces,
    the space is not in the nick set, and no word at all gives the empty
    string.  The reply is the invalid-nick text and the world is
    otherwise untouched. *)
Theorem nick_must_be_one_word payload msg w :
  payload <> [] ->
  List.length (split payload) <> 1%nat ->
  mines_nick payload msg w = (Ok tt, answered w invalid_nick None).
Proof.
  intros Hp Hl. unfold mines_nick.
  destruct payload as [|c payload]; [congruence|].
  rewrite nick_re_match_line by apply normalised_no_newline.
  set (n := join (lit " ") (split (c :: payload))).
  assert ((1 <=? List.length n)%nat && (List.length n <=? 16)%nat
          && forallb nick_set n = false) as E.
  { destruct (split (c :: payload)) as [|x [|y l]] eqn:Es.
    - reflexivity.
    - simpl in Hl. congruence.
    - apply andb_false_iff. right.
      destruct (forallb nick_set n) eqn:Ef; [|reflexivity].
      rewrite forallb_forall in Ef.
      assert (In 32%N n) as H32.
      { subst n. apply join_has_sep; [now left | simpl; lia]. }
      apply Ef in H32. vm_compute in H32. discriminate. }
  rewrite E. reflexivity.
Qed.

End Words.

Lemma mines_nick_stores_only_valid_free_nicks_witness :
  db.get_nick
    (store (snd (@mines_nick ascii_spaces (lit " Bob_1 ") (scene.says "x")
                             scene.idle)))
    scene.ann
  = Some (lit "Bob_1").
Proof.
  rewrite (@mines_nick_stores_only_valid_free_nicks ascii_spaces
             (lit " Bob_1 ") (scene.says "x") scene.idle).
  - vm_compute. reflexivity.
  - discriminate.
Defined.

(** The example of the command's documentation, [/mines_nick Dark
    Warrior], is one of the refused payloads. *)
Lemma nick_must_be_one_word_witness :
  @mines_nick ascii_spaces (lit "Dark Warrior") (scene.says "x") scene.idle
  = (Ok tt, answered scene.idle invalid_nick None).
Proof.
  apply (@nick_must_be_one_word ascii_spaces (lit "Dark Warrior")
           (scene.says "x") scene.idle).
  - discriminate.
  - vm_compute. discriminate.
Defined.

(** ** The registry *)

Lemma pystr_eqb_neq (s t : pystr) : pystr_eqb s t = false <-> s <> t.
Proof.
  unfold pystr_eqb. destruct (list_eq_dec N.eq_dec s t); split;
    congruence.
Qed.

Lemma renamed_fst a n rows :
  map fst (map (renamed a n) rows) = map fst rows.
Proof.
  induction rows as [|r rows IH]; simpl; [reflexivity|]. rewrite IH.
  unfold renamed. destruct (pystr_eqb (fst r) a) eqn:E; [|reflexivity].
  apply pystr_eqb_eq in E. simpl. now rewrite E.
Qed.

Lemma renamed_absent a n rows :
  ~ In a (map fst rows) -> map (renamed a n) rows = rows.
Proof.
  induction rows as [|r rows IH]; simpl; intros H; [reflexivity|].
  rewrite IH by tauto. unfold renamed.
  destruct (pystr_eqb (fst r) a) eqn:E; [|reflexivity].
  apply pystr_eqb_eq in E. tauto.
Qed.

Lemma existsb_addr a (rows : list (pystr * pystr)) :
  existsb (fun r => pystr_eqb (fst r) a) rows = true <-> In a (map fst rows).
Proof.
  rewrite existsb_exists, in_map_iff. split.
  - intros (r & Hin & E). apply pystr_eqb_eq in E. eauto.
  - intros (r & E & Hin). exists r. split; [exact Hin|].
    now apply pystr_eqb_eq.
Qed.

Lemma set_nick_nicks d a n :
  db.nicks (db.set_nick d a n)
  = if existsb (fun r => pystr_eqb (fst r) a) (db.nicks d)
    then map (renamed a n) (db.nicks d)
    else db.nicks d ++ [(a, n)].
Proof. reflexivity. Qed.

Lemma find_renamed_same a n rows :
  In a (map fst rows) ->
  find (fun r => pystr_eqb (fst r) a) (map (renamed a n) rows)
  = Some (a, n).
Proof.
  induction rows as [|r rows IH]; simpl; [intros []|]. intros H.
  destruct (pystr_eqb (fst r) a) eqn:E.
  - assert (renamed a n r = (a, n)) as -> by (unfold renamed; now rewrite E).
    cbn [fst snd]. now rewrite pystr_eqb_refl.
  - assert (renamed a n r = r) as -> by (unfold renamed; now rewrite E).
    rewrite E. apply IH. destruct H as [H|H]; [|exact H].
    apply pystr_eqb_neq in E. congruence.
Qed.

Lemma find_renamed_other a n a' rows :
  a' <> a ->
  option_map snd (find (fun r => pystr_eqb (fst r) a')
                       (map (renamed a n) rows))
  = option_map snd (find (fun r => pystr_eqb (fst r) a') rows).
Proof.
  intros Hne. induction rows as [|r rows IH]; simpl; [reflexivity|].
  destruct (pystr_eqb (fst r) a) eqn:E.
  - assert (renamed a n r = (a, n)) as -> by (unfold renamed; now rewrite E).
    apply pystr_eqb_eq in E. cbn [fst snd].
    assert (pystr_eqb a a' = false) as E1
      by (apply pystr_eqb_neq; congruence).
    rewrite E, E1. exact IH.
  - assert (renamed a n r = r) as -> by (unfold renamed; now rewrite E).
    destruct (pystr_eqb (fst r) a'); [reflexivity | exact IH].
Qed.

Lemma find_app_none {A} (f : A -> bool) (l : list A) (x : A) :
  find f l = None -> find f (l ++ [x]) = if f x then Some x else None.
Proof.
  induction l as [|y l IH]; simpl; [reflexivity|].
  destruct (f y); [discriminate | exact IH].
Qed.

Lemma find_app_some {A} (f : A -> bool) (l l' : list A) (y : A) :
  find f l = Some y -> find f (l ++ l') = Some y.
Proof.
  induction l as [|z l IH]; simpl; [discriminate|].
  destruct (f z); [auto | exact IH].
Qed.

Lemma get_nick_set_nick_same d a n :
  db.get_nick (db.set_nick d a n) a = Some n.
Proof.
  unfold db.get_nick. rewrite set_nick_nicks.
  destruct (existsb _ (db.nicks d)) eqn:E.
  - apply existsb_addr in E. now rewrite find_renamed_same.
  - rewrite find_app_none; [cbn [fst snd]; now rewrite pystr_eqb_refl|].
    destruct (find _ (db.nicks d)) as [r|] eqn:F; [|reflexivity].
    apply find_some in F. destruct F as [Hin F].
    assert (existsb (fun r => pystr_eqb (fst r) a) (db.nicks d) = true)
      by (apply existsb_exists; eauto).
    congruence.
Qed.

Lemma get_nick_set_nick_other d a n a' :
  a' <> a -> db.get_nick (db.set_nick d a n) a' = db.get_nick d a'.
Proof.
  intros Hne. unfold db.get_nick. rewrite set_nick_nicks.
  destruct (existsb _ (db.nicks d)).
  - now apply find_renamed_other.
  - destruct (find (fun r => pystr_eqb (fst r) a') (db.nicks d))
      as [r|] eqn:F.
    + now rewrite (find_app_some _ _ _ F).
    + rewrite find_app_none by exact F. simpl.
      assert (pystr_eqb a a' = false) as E
        by (apply pystr_eqb_neq; congruence).
      now rewrite E.
Qed.

Lemma find_nick_renamed a n rows :
  ~ In n (map snd rows) -> In a (map fst rows) ->
  find (fun r => pystr_eqb (snd r) n) (map (renamed a n) rows)
  = Some (a, n).
Proof.
  induction rows as [|r rows IH]; simpl; [intros _ []|]. intros Hn Ha.
  destruct (pystr_eqb (fst r) a) eqn:E.
  - assert (renamed a n r = (a, n)) as -> by (unfold renamed; now rewrite E).
    cbn [fst snd]. now rewrite pystr_eqb_refl.
  - assert (renamed a n r = r) as -> by (unfold renamed; now rewrite E).
    assert (pystr_eqb (snd r) n = false) as E1
      by (apply pystr_eqb_neq; intros H; apply Hn; now left).
    rewrite E1. apply IH; [tauto|].
    destruct Ha as [Ha|Ha]; [|exact Ha].
    apply pystr_eqb_neq in E. congruence.
Qed.

Lemma get_addr_set_nick d a n :
  ~ In n (map snd (db.nicks d)) ->
  db.get_addr (db.set_nick d a n) n = Some a.
Proof.
  intros Hn. unfold db.get_addr. rewrite set_nick_nicks.
  destruct (existsb _ (db.nicks d)) eqn:E.
  - apply existsb_addr in E. now rewrite find_nick_renamed.
  - rewrite find_app_none; [cbn [fst snd]; now rewrite pystr_eqb_refl|].
    destruct (find _ (db.nicks d)) as [r|] eqn:F; [|reflexivity].
    apply find_some in F. destruct F as [Hin F].
    apply pystr_eqb_eq in F. exfalso. apply Hn. rewrite <- F.
    now apply in_map.
Qed.

Lemma renamed_snd_nodup a n rows :
  NoDup (map fst rows) -> ~ In n (map snd rows) ->
  NoDup (map snd rows) ->
  NoDup (map snd (map (renamed a n) rows)).
Proof.
  induction rows as [|r rows IH]; simpl; intros Hf Hn Hs; [constructor|].
  inversion Hf as [|? ? Hfr Hf']; subst.
  inversion Hs as [|? ? Hsr Hs']; subst.
  destruct (pystr_eqb (fst r) a) eqn:E.
  - assert (renamed a n r = (a, n)) as -> by (unfold renamed; now rewrite E).
    apply pystr_eqb_eq in E. subst a.
    rewrite renamed_absent by exact Hfr. cbn [fst snd].
    constructor; [tauto | exact Hs'].
  - assert (renamed a n r = r) as -> by (unfold renamed; now rewrite E).
    constructor; [|apply IH; tauto].
    intros Hin. apply in_map_iff in Hin.
    destruct Hin as (x & Hx & Hin'). apply in_map_iff in Hin'.
    destruct Hin' as (y & <- & Hy). unfold renamed in Hx.
    destruct (pystr_eqb (fst y) a).
    + simpl in Hx. apply Hn. left. now symmetry.
    + apply Hsr. rewrite <- Hx. now apply in_map.
Qed.

Lemma set_nick_registry d a n :
  registry_ok d -> a <> [] -> ~ In n (map snd (db.nicks d)) ->
  registry_ok (db.set_nick d a n).
Proof.
  intros (Hf & Hs & He) Ha Hn. unfold registry_ok.
  rewrite set_nick_nicks.
  destruct (existsb _ (db.nicks d)) eqn:E.
  - rewrite renamed_fst. repeat split; auto.
    now apply renamed_snd_nodup.
  - assert (~ In a (map fst (db.nicks d))) as Hna.
    { intros H. apply existsb_addr in H. congruence. }
    rewrite !map_app. simpl. repeat split.
    + apply NoDup_app; [exact Hf | repeat constructor; intros [] |].
      intros x Hx [<-|[]]. contradiction.
    + apply NoDup_app; [exact Hs | repeat constructor; intros [] |].
      intros x Hx [<-|[]]. contradiction.
    + intros H. apply in_app_or in H. destruct H as [H|[H|[]]]; auto.
Qed.

(** A nick that no address has, in a registry without the empty
    address. *)
Lemma free_nick d n :
  ~ In [] (map fst (db.nicks d)) ->
  truthy (db.get_addr d n) = false ->
  ~ In n (map snd (db.nicks d)).
Proof.
  intros He Ht Hin. unfold db.get_addr in Ht.
  destruct (find (fun r => pystr_eqb (snd r) n) (db.nicks d))
    as [r|] eqn:F.
  - apply find_some in F. destruct F as [Hr _]. simpl in Ht.
    destruct (fst r) eqn:Er; [|discriminate].
    apply He. rewrite <- Er. now apply in_map.
  - apply in_map_iff in Hin. destruct Hin as (r & <- & Hr).
    apply (find_none _ _ F) in Hr. simpl in Hr.
    now rewrite pystr_eqb_refl in Hr.
Qed.

Section Registry.
Context {S : SpaceTable}.

(** X12.  [mines_nick] keeps the registry of nicks sound: when every
    address has one entry, no two addresses share a nick and no entry is
    for the empty address, the same holds after the command, for any
    payload of a sender with an address.  The game records and their
    journal are untouched, the nick of every other address is what it
    was, and either no nick changed or the sender now has the normalised
    payload as nick and is the address found for it. *)
Theorem mines_nick_keeps_registry payload msg w :
  registry_ok (store w) ->
  sender_addr msg <> [] ->
  let n := join (lit " ") (split payload) in
  let w' := snd (mines_nick payload msg w) in
  registry_ok (store w')
  /\ db.games (store w') = db.games (store w)
  /\ db.journal (store w') = db.journal (store w)
  /\ (forall a, a <> sender_addr msg ->
                db.get_nick (store w') a = db.get_nick (store w) a)
  /\ (db.nicks (store w') = db.nicks (store w)
      \/ (db.get_nick (store w') (sender_addr msg) = Some n
          /\ db.get_addr (store w') n = Some (sender_addr msg))).
Proof.
  intros Hok Ha n w'. subst w'. unfold mines_nick.
  destruct payload as [|c payload].
  - unfold bind, db_read, replies_add. simpl.
    split; [exact Hok | repeat split; auto].
  - fold n. destruct (re_match nick_re n); cbn [negb];
      [|unfold replies_add; simpl; split; [exact Hok | repeat split; auto]].
    unfold bind, db_read, db_write, replies_add.
    destruct (truthy (db.get_addr (store w) n)) eqn:Et;
      [simpl; split; [exact Hok | repeat split; auto]|].
    cbn [snd store].
    assert (~ In n (map snd (db.nicks (store w)))) as Hn.
    { destruct Hok as (_ & _ & He). now apply free_nick. }
    split; [now apply set_nick_registry|].
    split; [reflexivity|]. split; [reflexivity|]. split.
    + intros a Hne. now apply get_nick_set_nick_other.
    + right. split; [apply get_nick_set_nick_same|].
      now apply get_addr_set_nick.
Qed.

End Registry.

Lemma mines_nick_keeps_registry_witness :
  registry_ok
    (store (snd (@mines_nick ascii_spaces (lit " Bob_1 ") (scene.says "x")
                             scene.idle))).
Proof.
  destruct (@mines_nick_keeps_registry ascii_spaces (lit " Bob_1 ")
              (scene.says "x") scene.idle) as [H _].
  - unfold registry_ok. simpl.
    split; [repeat constructor; intros [] |].
    split; [repeat constructor; intros [] |].
    intros [E|[]]. discriminate E.
  - discriminate.
  - exact H.
Defined.

(* ===================================================================== *)
(** * The scoreboard *)
(* ===================================================================== *)

(** ** The order of the records *)

Lemma insert_by_score_in (g x : db.Game) (l : list db.Game) :
  In x (db.insert_by_score g l) <-> x = g \/ In x l.
Proof.
  induction l as [|y l IH]; simpl.
  - split; [intros [H|[]]; auto | intros [H|[]]; auto].
  - destruct (db.score y <=? db.score g); simpl.
    + split; [intros [H|H]; auto | intros [H|H]; auto].
    + rewrite IH. tauto.
Qed.

Lemma by_score_in (x : db.Game) (l : list db.Game) :
  In x (db.by_score l) <-> In x l.
Proof.
  unfold db.by_score. induction l as [|y l IH]; simpl; [tauto|].
  rewrite insert_by_score_in, IH. split; intros [H|H]; auto.
Qed.

Lemma insert_by_score_length (g : db.Game) (l : list db.Game) :
  List.length (db.insert_by_score g l) = S (List.length l).
Proof.
  induction l as [|y l IH]; simpl; [reflexivity|].
  destruct (db.score y <=? db.score g); simpl; auto.
Qed.

Lemma by_score_length (l : list db.Game) :
  List.length (db.by_score l) = List.length l.
Proof.
  unfold db.by_score. induction l as [|y l IH]; simpl; [reflexivity|].
  now rewrite insert_by_score_length, IH.
Qed.

Lemma insert_by_score_sorted (g : db.Game) (l : list db.Game) :
  StronglySorted not_below l -> StronglySorted not_below (db.insert_by_score g l).
Proof.
  induction 1 as [|y l Hl IH Hy]; simpl.
  - repeat constructor.
  - destruct (Z.leb_spec (db.score y) (db.score g)).
    + constructor; [constructor; assumption|].
      constructor; [exact H|].
      rewrite Forall_forall in *. intros x Hx. apply Hy in Hx.
      unfold not_below in *. lia.
    + constructor; [exact IH|].
      rewrite Forall_forall in *. intros x Hx.
      apply insert_by_score_in in Hx. destruct Hx as [->|Hx].
      * unfold not_below. lia.
      * now apply Hy.
Qed.

Lemma by_score_sorted (l : list db.Game) :
  StronglySorted not_below (db.by_score l).
Proof.
  unfold db.by_score. induction l as [|y l IH]; simpl; [constructor|].
  now apply insert_by_score_sorted.
Qed.

Lemma sorted_positions (l : list db.Game) (i j : nat) (x y : db.Game) :
  StronglySorted not_below l -> (i < j)%nat ->
  nth_error l i = Some x -> nth_error l j = Some y ->
  db.score y <= db.score x.
Proof.
  intros Hs. revert i j. induction Hs as [|z l Hl IH Hz]; intros i j Hij Hi Hj.
  - destruct i; discriminate.
  - destruct j as [|j]; [lia|]. simpl in Hj. destruct i as [|i].
    + simpl in Hi. injection Hi as <-.
      rewrite Forall_forall in Hz. apply Hz.
      eapply nth_error_In; eassumption.
    + simpl in Hi. apply (IH i j); auto. lia.
Qed.

(** ** Looking a record up in a list *)

Lemma game_eqb_eq (x y : db.Game) : game_eqb x y = true <-> x = y.
Proof.
  unfold game_eqb. destruct x as [a g b s], y as [a' g' b' s']. simpl.
  rewrite !andb_true_iff, pystr_eqb_eq, !Z.eqb_eq. split.
  - intros [[[-> ->] Hb] ->]. f_equal.
    destruct b, b'; try discriminate; [|reflexivity].
    apply pystr_eqb_eq in Hb. now subst.
  - intros H. injection H as -> -> -> ->. repeat split.
    destruct b'; [apply pystr_eqb_refl | reflexivity].
Qed.

Lemma index_of_found (g : db.Game) (l : list db.Game) (p : nat) :
  index_of g l = Some p -> nth_error l p = Some g.
Proof.
  revert p. induction l as [|x l IH]; simpl; intros p; [discriminate|].
  destruct (game_eqb x g) eqn:E.
  - intros H. injection H as <-. apply game_eqb_eq in E. now subst.
  - destruct (index_of g l) as [q|]; [|discriminate].
    intros H. injection H as <-. simpl. now apply IH.
Qed.

Lemma index_of_member (g : db.Game) (l : list db.Game) :
  In g l -> exists p, index_of g l = Some p.
Proof.
  induction l as [|x l IH]; simpl; [intros []|]. intros H.
  destruct (game_eqb x g) eqn:E; [eauto|].
  destruct H as [->|H].
  - assert (game_eqb g g = true) by now apply game_eqb_eq. congruence.
  - destruct (IH H) as [p ->]. simpl. eauto.
Qed.

Lemma nth_error_within {A} (l : list A) (i : nat) (x : A) :
  nth_error l i = Some x -> (i < List.length l)%nat.
Proof. intros H. apply nth_error_Some. congruence. Qed.

(** ** Numbered rows *)

Lemma enumerate_from_in {A} (k : nat) (l : list A) (n : nat) (x : A) :
  In (n, x) (enumerate_from k l)
  <-> (k <= n)%nat /\ nth_error l (n - k) = Some x.
Proof.
  unfold enumerate_from. revert k. induction l as [|y l IH]; intros k; simpl.
  - split; [intros [] | intros [_ H]; destruct (n - k)%nat; discriminate].
  - rewrite IH. split.
    + intros [H|[Hk Hn]].
      * injection H as <- <-. rewrite Nat.sub_diag. auto.
      * split; [lia|]. replace (n - k)%nat with (S (n - S k)) by lia.
        exact Hn.
    + intros [Hk Hn]. destruct (Nat.eq_dec n k) as [->|Hne].
      * rewrite Nat.sub_diag in Hn. simpl in Hn. injection Hn as <-.
        now left.
      * right. split; [lia|].
        replace (n - k)%nat with (S (n - S k)) in Hn by lia. exact Hn.
Qed.

Lemma enumerate_from_ranks {A} (k : nat) (l : list A) :
  map fst (enumerate_from k l) = seq k (List.length l).
Proof.
  unfold enumerate_from. revert k. induction l as [|y l IH]; intros k; simpl;
    [reflexivity|]. now rewrite IH.
Qed.

Lemma enumerate_from_length {A} (k : nat) (l : list A) :
  List.length (enumerate_from k l) = List.length l.
Proof.
  rewrite <- (length_map fst), enumerate_from_ranks. apply length_seq.
Qed.

Lemma seq_sorted (k n : nat) : StronglySorted lt (seq k n).
Proof.
  revert k. induction n as [|n IH]; intros k; simpl; constructor; auto.
  apply Forall_forall. intros x Hx. apply in_seq in Hx. lia.
Qed.

Lemma sorted_app (l1 l2 : list nat) :
  StronglySorted lt l1 -> StronglySorted lt l2 ->
  (forall x y, In x l1 -> In y l2 -> (x < y)%nat) ->
  StronglySorted lt (l1 ++ l2).
Proof.
  intros H1 H2 H. induction H1 as [|a l1 Hl IH Ha]; simpl; [exact H2|].
  constructor.
  - apply IH. intros x y Hx. apply H. now right.
  - apply Forall_app. split; [exact Ha|].
    apply Forall_forall. intros y Hy. apply H; [now left | exact Hy].
Qed.

Lemma fold_left_rows (d : db.DBManager) (l : list (nat * db.Game))
      (t : pystr) :
  fold_left (fun t ng => t ++ score_row d ng) l t = t ++ score_rows d l.
Proof.
  unfold score_rows. revert t. induction l as [|x l IH]; intros t; simpl.
  - now rewrite app_nil_r.
  - rewrite IH. now rewrite <- app_assoc.
Qed.

(** ** The text of the scoreboard *)

Lemma nth_error_firstn_some {A} (k i : nat) (l : list A) (x : A) :
  nth_error (firstn k l) i = Some x -> nth_error l i = Some x.
Proof.
  revert k i. induction l as [|y l IH]; intros k i.
  - rewrite firstn_nil. destruct i; discriminate.
  - destruct k as [|k]; [destruct i; discriminate|].
    destruct i as [|i]; simpl; auto. apply IH.
Qed.

Lemma nth_error_firstn_below {A} (k i : nat) (l : list A) :
  (i < k)%nat -> nth_error (firstn k l) i = nth_error l i.
Proof.
  revert k i. induction l as [|y l IH]; intros k i Hi.
  - now rewrite firstn_nil.
  - destruct k as [|k]; [lia|]. destruct i as [|i]; simpl; auto.
    apply IH. lia.
Qed.

(** The rows of the first block: the first fifteen records, numbered
    from 1. *)
Lemma top_block_facts (L : list db.Game) :
  let top := enumerate_from 1 (firstn top_limit L) in
  (List.length top <= 15)%nat
  /\ map fst top = seq 1 (List.length top)
  /\ Forall (fun ng => (1 <= fst ng <= 15)%nat
                       /\ nth_error L (fst ng - 1) = Some (snd ng)) top.
Proof.
  intros top. subst top.
  assert (List.length (firstn top_limit L) <= 15)%nat as Hlen
    by apply firstn_le_length.
  rewrite enumerate_from_length. split; [exact Hlen|].
  split; [apply enumerate_from_ranks|].
  apply Forall_forall. intros [n x] Hin. simpl.
  apply enumerate_from_in in Hin. destruct Hin as [Hn Hx].
  pose proof (nth_error_within _ _ Hx) as Hw.
  split; [lia|]. eapply nth_error_firstn_some. eassumption.
Qed.

(** The rows of the player's block. *)
Lemma own_block_facts (L : list db.Game) (p : nat) (g : db.Game) :
  nth_error L p = Some g -> (15 <= p)%nat ->
  let own := own_block L p g in
  (List.length own <= 3)%nat
  /\ StronglySorted lt (map fst own)
  /\ Forall (fun ng => (16 <= fst ng)%nat
                       /\ nth_error L (fst ng - 1) = Some (snd ng)) own
  /\ In ((p + 1)%nat, g) own.
Proof.
  intros Hp H15 own. subst own. unfold own_block, top_limit.
  assert (nth_error L (p + 1 - 1) = Some g) as Hp'
    by (now rewrite Nat.add_sub).
  destruct (15 <? p)%nat eqn:E1;
    [apply Nat.ltb_lt in E1 | apply Nat.ltb_ge in E1];
    destruct (nth_error L (p - 1)) as [x|] eqn:Ex;
    destruct (p <? List.length L - 1)%nat;
    destruct (nth_error L (p + 1)) as [y|] eqn:Ey;
    cbn [app map fst List.length];
    (split; [lia|]);
    (split; [repeat (constructor; [|repeat (constructor; try lia)]);
             try constructor|]);
    (split; [|simpl; auto]);
    repeat (constructor;
            [cbn [fst snd]; split; [lia|];
             first [ exact Hp' | exact Ex
                   | replace (p + 2 - 1)%nat with (p + 1)%nat by lia;
                     exact Ey ]|]);
    try constructor.
Qed.

Lemma top_text_without_record (d : db.DBManager) (a : pystr) :
  db.get_game_by_addr d a = None ->
  top_text d a
  = Ok (scoreboard_head
        ++ match db.games d with [] => empty_list | _ :: _ => [] end
        ++ score_rows d (enumerate_from 1
                           (firstn top_limit (db.get_games d None)))).
Proof.
  intros Ha. unfold top_text. rewrite Ha. rewrite fold_left_rows.
  unfold db.get_games. rewrite firstn_firstn, Nat.min_id.
  f_equal.
  assert (forall l : list db.Game,
             match firstn top_limit (db.by_score l) with
             | [] => scoreboard_head ++ empty_list
             | _ :: _ => scoreboard_head
             end
             = scoreboard_head
               ++ match l with [] => empty_list | _ :: _ => [] end) as E.
  { intros [|x l]; [reflexivity|].
    pose proof (by_score_length (x :: l)) as Hl.
    destruct (db.by_score (x :: l)); [discriminate|].
    unfold top_limit. cbn [firstn]. now rewrite app_nil_r. }
  rewrite E. now rewrite <- app_assoc.
Qed.

Lemma top_text_with_record (d : db.DBManager) (a : pystr) (g : db.Game)
      (p : nat) :
  db.get_game_by_addr d a = Some g ->
  index_of g (db.get_games d None) = Some p ->
  let own := if (top_limit <=? p)%nat
             then own_block (db.get_games d None) p g else [] in
  top_text d a
  = Ok (scoreboard_head
        ++ score_rows d (enumerate_from 1
                           (firstn top_limit (db.get_games d None)))
        ++ block_gap own ++ score_rows d own).
Proof.
  intros Ha Hp own. subst own. unfold top_text. rewrite Ha, Hp.
  rewrite fold_left_rows.
  pose proof (index_of_found _ _ Hp) as Hg.
  pose proof (nth_error_within _ _ Hg) as Hw.
  set (L := db.get_games d None) in *.
  destruct L as [|x0 L0] eqn:EL; [simpl in Hw; lia|]. rewrite <- EL in *.
  destruct (top_limit <=? p)%nat eqn:E15;
    [|simpl; now rewrite !app_nil_r].
  unfold own_block, score_rows.
  destruct (top_limit <? p)%nat eqn:E16.
  - apply Nat.ltb_lt in E16. unfold top_limit in E16.
    destruct (nth_error L (p - 1)) as [x|] eqn:Ex.
    2:{ apply nth_error_None in Ex. lia. }
    cbn [res_bind].
    destruct (p <? List.length L - 1)%nat eqn:El.
    + apply Nat.ltb_lt in El.
      destruct (nth_error L (p + 1)) as [y|] eqn:Ey.
      2:{ apply nth_error_None in Ey. lia. }
      f_equal. cbn [app map List.concat block_gap].
      rewrite !app_nil_r. now rewrite <- !app_assoc.
    + f_equal. cbn [app map List.concat block_gap].
      rewrite !app_nil_r. now rewrite <- !app_assoc.
  - cbn [res_bind].
    destruct (p <? List.length L - 1)%nat eqn:El.
    + apply Nat.ltb_lt in El.
      destruct (nth_error L (p + 1)) as [y|] eqn:Ey.
      2:{ apply nth_error_None in Ey. lia. }
      f_equal. cbn [app map List.concat block_gap].
      rewrite !app_nil_r. now rewrite <- !app_assoc.
    + f_equal. cbn [app map List.concat block_gap].
      rewrite !app_nil_r. now rewrite <- !app_assoc.
Qed.

(** The text of the scoreboard in blocks of numbered rows. *)
Lemma top_text_blocks (d : db.DBManager) (a : pystr) :
  exists top own,
    top_text d a
    = Ok (scoreboard_head
          ++ match db.games d with [] => empty_list | _ :: _ => [] end
          ++ score_rows d top ++ block_gap own ++ score_rows d own)
    /\ (List.length top <= 15)%nat /\ (List.length own <= 3)%nat
    /\ StronglySorted lt (map fst (top ++ own))
    /\ Forall (fun ng =>
                 (1 <= fst ng)%nat
                 /\ nth_error (db.get_games d None) (fst ng - 1)
                    = Some (snd ng))
              (top ++ own)
    /\ (forall x y,
          In x (top ++ own) -> In y (top ++ own) ->
          (fst x < fst y)%nat -> db.score (snd y) <= db.score (snd x))
    /\ (forall g, db.get_game_by_addr d a = Some g ->
                  exists n, In (n, g) (top ++ own)).
Proof.
  set (L := db.get_games d None).
  destruct (top_block_facts L) as (T1 & T2 & T3).
  set (top := enumerate_from 1 (firstn top_limit L)) in *.
  assert (forall own,
             Forall (fun ng => (16 <= fst ng)%nat
                               /\ nth_error L (fst ng - 1) = Some (snd ng))
                    own ->
             StronglySorted lt (map fst own) ->
             StronglySorted lt (map fst (top ++ own))
             /\ Forall (fun ng => (1 <= fst ng)%nat
                                  /\ nth_error L (fst ng - 1)
                                     = Some (snd ng)) (top ++ own)
             /\ (forall x y,
                    In x (top ++ own) -> In y (top ++ own) ->
                    (fst x < fst y)%nat ->
                    db.score (snd y) <= db.score (snd x))) as Hall.
  { intros own O1 O2.
    assert (Forall (fun ng => (1 <= fst ng)%nat
                              /\ nth_error L (fst ng - 1) = Some (snd ng))
                   (top ++ own)) as HF.
    { apply Forall_app. split.
      - eapply Forall_impl; [|exact T3]. simpl. intros ng [H1 H2].
        split; [lia | exact H2].
      - eapply Forall_impl; [|exact O1]. simpl. intros ng [H1 H2].
        split; [lia | exact H2]. }
    split; [|split; [exact HF|]].
    - rewrite map_app. apply sorted_app; [rewrite T2; apply seq_sorted
                                         | exact O2 |].
      intros x y Hx Hy.
      apply in_map_iff in Hx. destruct Hx as (ex & <- & Hx).
      apply in_map_iff in Hy. destruct Hy as (ey & <- & Hy).
      rewrite Forall_forall in T3, O1.
      apply T3 in Hx. apply O1 in Hy. lia.
    - intros x y Hx Hy Hlt. rewrite Forall_forall in HF.
      destruct (HF _ Hx) as [X1 X2]. destruct (HF _ Hy) as [Y1 Y2].
      eapply sorted_positions with (l := L) (i := (fst x - 1)%nat)
                                   (j := (fst y - 1)%nat); eauto.
      + apply by_score_sorted.
      + lia. }
  destruct (db.get_game_by_addr d a) as [g|] eqn:Ha.
  - assert (In g L) as Hin.
    { unfold L, db.get_games. apply by_score_in.
      unfold db.get_game_by_addr in Ha. now apply find_some in Ha. }
    destruct (index_of_member _ _ Hin) as [p Hp].
    pose proof (index_of_found _ _ Hp) as Hg.
    assert (db.games d <> []) as Hne.
    { unfold db.get_game_by_addr in Ha. apply find_some in Ha.
      destruct Ha as [Ha _]. intros E. rewrite E in Ha. destruct Ha. }
    exists top.
    exists (if (top_limit <=? p)%nat then own_block L p g else []).
    rewrite (top_text_with_record d a Ha Hp). fold L. fold top.
    destruct (db.games d) as [|x0 l0] eqn:Eg; [congruence|]. cbn [app].
    split; [reflexivity|]. split; [exact T1|].
    destruct (Nat.leb_spec top_limit p) as [H15|H15].
    + unfold top_limit in H15.
      destruct (@own_block_facts L p g Hg H15) as (O1 & O2 & O3 & O4).
      split; [exact O1|].
      destruct (Hall _ O3 O2) as (A1 & A2 & A3).
      repeat split; auto.
      intros g' Hg'. injection Hg' as <-. exists (p + 1)%nat.
      apply in_or_app. now right.
    + split; [simpl; lia|].
      destruct (Hall [] (Forall_nil _) (SSorted_nil _)) as (A1 & A2 & A3).
      repeat split; auto.
      intros g' Hg'. injection Hg' as <-. exists (p + 1)%nat.
      apply in_or_app. left. apply enumerate_from_in. split; [lia|].
      replace (p + 1 - 1)%nat with p by lia.
      rewrite nth_error_firstn_below by exact H15. exact Hg.
  - exists top, [].
    rewrite (top_text_without_record d a Ha). fold L. fold top.
    split; [cbn [block_gap score_rows map List.concat app];
            now rewrite !app_nil_r|].
    split; [exact T1|]. split; [simpl; lia|].
    destruct (Hall [] (Forall_nil _) (SSorted_nil _)) as (A1 & A2 & A3).
    repeat split; auto. intros g H. discriminate H.
Qed.

(** X13.  [mines_top] always finds the sender's record in the list, so it
    never raises and answers with one reply in the chat of the message,
    changing nothing else.  The text is the head line, the notice of an
    empty list when there is no record at all, at most fifteen rows and,
    after a blank line, at most three more rows around a sender who is
    not in those fifteen.  The number of every row is the place of its
    record in the order of the scores, the numbers go up from row to row,
    so that no record is shown twice, a row with a better number never
    has a lower score, and a sender who has a record is in one of the
    rows. *)
Theorem scoreboard_rows_are_ranked (msg : Message) (w : World) :
  exists top own,
    mines_top msg w
    = (Ok tt,
       answered w
         (scoreboard_head
          ++ match db.games (store w) with
             | [] => empty_list
             | _ :: _ => []
             end
          ++ score_rows (store w) top
          ++ block_gap own ++ score_rows (store w) own)
         None)
    /\ (List.length top <= 15)%nat /\ (List.length own <= 3)%nat
    /\ StronglySorted lt (map fst (top ++ own))
    /\ Forall (fun ng =>
                 (1 <= fst ng)%nat
                 /\ nth_error (db.get_games (store w) None) (fst ng - 1)
                    = Some (snd ng))
              (top ++ own)
    /\ (forall x y,
          In x (top ++ own) -> In y (top ++ own) ->
          (fst x < fst y)%nat -> db.score (snd y) <= db.score (snd x))
    /\ (forall g,
          db.get_game_by_addr (store w) (sender_addr msg) = Some g ->
          exists n, In (n, g) (top ++ own)).
Proof.
  destruct (top_text_blocks (store w) (sender_addr msg))
    as (top & own & Ht & H).
  exists top, own. split; [|exact H].
  unfold mines_top. rewrite Ht. reflexivity.
Qed.

(** Twenty players with the scores 0 to 19, nobody with a nick: the
    player with score 2 is the eighteenth, and the rows after the blank
    line are the seventeenth, the eighteenth and the nineteenth. *)
Example scoreboard_of_twenty :
  let d := db.mkDB (map (fun i => db.mkGame (str_of_int i) i None i)
                        (map Z.of_nat (seq 0 20))) [] [] 0 in
  option_map (fun t => skipn 192 t)
             (match top_text d (str_of_int 2) with
              | Ok t => Some t
              | Raise _ => None
              end)
  = Some (nl ++ lit "#17 None 3" ++ nl ++ lit "#18 None 2" ++ nl
          ++ lit "#19 None 1" ++ nl).
Proof. vm_compute. reflexivity. Qed.

(* ===================================================================== *)
(** * Leaving the group of a game *)
(* ===================================================================== *)

(** X14.  A member leaving a group ends a game only when the group is the
    chat of a game and the member is the bot or the player of that game:
    in any other case the hook changes nothing and the bot stays.  And
    the bot only ever leaves the chat the hook was called for, and never
    when it is the bot itself that was removed. *)
Theorem only_bot_or_player_ends_the_game
        (delete_game : db.DBManager -> pystr -> db.DBManager)
        (me : Contact) (chat : Z) (contact : Contact) (w : World) :
  (deltabot_member_removed delete_game me chat contact w <> (w, []) ->
   exists game,
     db.get_game_by_gid (store w) chat = Some game
     /\ (contact_addr contact = contact_addr me
         \/ contact_addr contact = db.addr game))
  /\ (forall c,
        In c (snd (deltabot_member_removed delete_game me chat contact w)) ->
        c = chat /\ contact_id contact <> contact_id me).
Proof.
  unfold deltabot_member_removed.
  destruct (db.get_game_by_gid (store w) chat) as [game|];
    [|split; [congruence | intros c []]].
  destruct (pystr_eqb (contact_addr contact) (contact_addr me)) eqn:E1;
    destruct (pystr_eqb (contact_addr contact) (db.addr game)) eqn:E2;
    cbn [orb];
    try (split; [congruence | intros c []]);
    (split;
     [ intros _; exists game; split; [reflexivity|];
       first [ left; now apply pystr_eqb_eq
             | right; now apply pystr_eqb_eq ]
     | unfold contact_eqb;
       destruct (Z.eqb_spec (contact_id contact) (contact_id me));
       cbn [negb snd]; [intros c [] | intros c [<-|[]]; auto] ]).
Qed.

Lemma only_bot_or_player_ends_the_game_witness :
  exists game,
    db.get_game_by_gid (store (scene.playing 3)) 7 = Some game
    /\ (scene.ann = lit "bot@example.org" \/ scene.ann = db.addr game).
Proof.
  destruct (@only_bot_or_player_ends_the_game
              (fun d a =>
                 db.mkDB (filter (fun r => negb (pystr_eqb (db.addr r) a))
                                 (db.games d))
                         (db.nicks d) (db.journal d) (db.new_score d))
              (mkContact 1 (lit "bot@example.org")) 7
              (mkContact 12 scene.ann) (scene.playing 3))
    as [H _].
  apply H. vm_compute. discriminate.
Defined.

(* ===================================================================== *)
(** * One message in, at most one message out *)
(* ===================================================================== *)

Section OneReply.
Context {U : UnicodeTables} {B : BoardAPI} {S : SpaceTable}.

(** The turn touches the storage only. *)
Lemma run_turn_frame now g w :
  groups (snd (_run_turn now g w)) = groups w
  /\ outbox (snd (_run_turn now g w)) = outbox w
  /\ logged (snd (_run_turn now g w)) = logged w.
Proof.
  unfold _run_turn, bind, db_read, lift, db_write, ret, raise.
  destruct (db.get_game_by_gid (store w) g) as [r|]; simpl; auto.
  destruct (truthy (db.board r)); simpl; auto.
  destruct (Board_load _) as [b|e]; simpl; auto.
  destruct (result b =? 1); simpl; auto.
  destruct (result b =? -1); simpl; auto.
Qed.

(** X15.  Every handler adds at most one reply, and none when it ends
    with an exception: after [filter_messages], [mines_play],
    [mines_repeat], [mines_nick] or [mines_top] the replies are the ones
    there were, or the handler returned normally and they are those
    followed by one more. *)
Theorem handlers_reply_at_most_once rnd t0 now new_id payload msg w :
  at_most_one_reply w (filter_messages now msg w)
  /\ at_most_one_reply w (mines_play rnd t0 now new_id msg w)
  /\ at_most_one_reply w (mines_repeat now msg w)
  /\ at_most_one_reply w (mines_nick payload msg w)
  /\ at_most_one_reply w (mines_top msg w).
Proof.
  unfold at_most_one_reply. repeat split.
  - unfold filter_messages, try_except_ValueError, bind, db_read, lift,
      db_write, replies_add, logger_exception, ret.
    destruct (not_a_move (text msg)); [now left|].
    destruct (db.get_game_by_gid (store w) (chat_id msg)) as [r|];
      [|now left].
    destruct (db.board r) as [s|]; [|now left].
    destruct (Board_load s) as [b|e];
      [|destruct e; simpl; eauto].
    destruct (move b (text msg)) as [b1|e];
      [|destruct e; simpl; eauto].
    match goal with
    | |- context [_run_turn now (chat_id msg) ?w1] =>
      destruct (run_turn_frame now (chat_id msg) w1) as (_ & Ho & _);
        destruct (_run_turn now (chat_id msg) w1) as [[t|e] w2]
    end; simpl in *; rewrite ?Ho; [eauto|].
    destruct e; simpl; rewrite ?Ho; eauto.
  - unfold mines_play, bind, db_read, create_group, lift, db_write,
      replies_add.
    destruct (truthy (db.get_nick (store w) (sender_addr msg)));
      cbn [negb]; [|simpl; eauto].
    destruct (db.get_game_by_addr (store w) (sender_addr msg)) as [r|];
      (destruct (Board_new rnd t0) as [b|e]; [|simpl; eauto]);
      match goal with
      | |- context [_run_turn now ?g ?w1] =>
        destruct (run_turn_frame now g w1) as (_ & Ho & _);
          destruct (_run_turn now g w1) as [[t|e] w2]
      end; simpl in *; rewrite ?Ho; eauto.
  - unfold mines_repeat, bind, db_read, replies_add.
    destruct (db.get_game_by_addr (store w) (sender_addr msg)) as [r|];
      [|simpl; eauto].
    destruct (run_turn_frame now (db.gid r) w) as (_ & Ho & _).
    destruct (_run_turn now (db.gid r) w) as [[t|e] w2];
      simpl in *; rewrite ?Ho; eauto.
  - unfold mines_nick, bind, db_read, db_write, replies_add.
    destruct payload as [|c payload]; [simpl; eauto|].
    destruct (re_match nick_re _); cbn [negb]; [|simpl; eauto].
    destruct (truthy _); simpl; eauto.
  - unfold mines_top, replies_add.
    destruct (top_text (store w) (sender_addr msg)); simpl; eauto.
Qed.

End OneReply.

(* ===================================================================== *)
(** * What holds along every history *)
(* ===================================================================== *)

Lemma games_kept_refl (d : db.DBManager) : games_kept d d.
Proof.
  exists (db.games d), []. rewrite app_nil_r. auto using rows_kept_refl.
Qed.

Lemma games_kept_trans (d1 d2 d3 : db.DBManager) :
  games_kept d1 d2 -> games_kept d2 d3 -> games_kept d1 d3.
Proof.
  intros (rows1 & ex1 & E1 & F1) (rows2 & ex2 & E2 & F2).
  rewrite E1 in F2. apply Forall2_app_inv_l in F2.
  destruct F2 as (ra & rb & Fa & Fb & ->).
  exists ra, (rb ++ ex2). split.
  - rewrite E2. now rewrite app_assoc.
  - eapply rows_kept_trans; eassumption.
Qed.

Lemma records_kept_games (d d' : db.DBManager) :
  records_kept d d' -> games_kept d d'.
Proof. intros [_ H]. exact H. Qed.

Lemma registry_of_nicks (d d' : db.DBManager) :
  db.nicks d' = db.nicks d -> registry_ok d -> registry_ok d'.
Proof. unfold registry_ok. now intros ->. Qed.

Section Sound.
Context {U : UnicodeTables} {B : BoardAPI} {S : SpaceTable}.

Lemma mines_nick_sound payload msg w :
  registry_ok (store w) -> sender_addr msg <> [] ->
  registry_ok (store (snd (mines_nick payload msg w)))
  /\ db.games (store (snd (mines_nick payload msg w))) = db.games (store w).
Proof.
  intros Hok Ha. unfold mines_nick, bind, db_read, db_write, replies_add.
  destruct payload as [|c payload]; [simpl; auto|].
  destruct (re_match nick_re _); cbn [negb]; [|simpl; auto].
  destruct (truthy (db.get_addr (store w) _)) eqn:Et; [simpl; auto|].
  cbn [snd store]. split; [|reflexivity].
  apply set_nick_registry; auto.
  destruct Hok as (_ & _ & He). now apply free_nick.
Qed.

Lemma mines_top_store msg w : store (snd (mines_top msg w)) = store w.
Proof.
  unfold mines_top, replies_add.
  destruct (top_text (store w) (sender_addr msg)); reflexivity.
Qed.

(** One event keeps what the history theorem states. *)
Lemma handle_sound (w : World) (e : Event) :
  unique_addrs (store w) -> registry_ok (store w) -> sender_of e <> [] ->
  games_kept (store w) (store (handle w e))
  /\ unique_addrs (store (handle w e))
  /\ registry_ok (store (handle w e)).
Proof.
  intros Hu Hr Hs. destruct e as [now msg | rnd t0 now new_id msg
                                 | now msg | payload msg | msg];
    cbn [handle sender_of] in *.
  - destruct (filter_messages_keeps now msg w Hu) as [[Hn Hk] Hu'].
    split; [exact Hk|]. split; [exact Hu'|].
    now apply (registry_of_nicks _ Hn).
  - destruct (mines_play_keeps rnd t0 now new_id msg w Hu)
      as [[Hn Hk] Hu'].
    split; [exact Hk|]. split; [exact Hu'|].
    now apply (registry_of_nicks _ Hn).
  - destruct (mines_repeat_keeps now msg w Hu) as [[Hn Hk] Hu'].
    split; [exact Hk|]. split; [exact Hu'|].
    now apply (registry_of_nicks _ Hn).
  - destruct (mines_nick_sound payload msg w Hr Hs) as [Hr' Hg].
    split; [|split; [|exact Hr']].
    + exists (db.games (store w)), []. rewrite app_nil_r, Hg.
      auto using rows_kept_refl.
    + unfold unique_addrs. now rewrite Hg.
  - rewrite mines_top_store. auto using games_kept_refl.
Qed.

(** X16.  Along every history of messages and commands, in any order, from
    senders with an address, and whatever the board does: no record
    disappears or changes its player or its chat, no high score ever goes
    down, the address stays the key of the records, every address has one
    nick and no two addresses share one. *)
Theorem histories_keep_scores_and_nicks (es : list Event) (w : World) :
  unique_addrs (store w) -> registry_ok (store w) ->
  Forall (fun e => sender_of e <> []) es ->
  games_kept (store w) (store (history es w))
  /\ unique_addrs (store (history es w))
  /\ registry_ok (store (history es w)).
Proof.
  unfold history. revert w.
  induction es as [|e es IH]; intros w Hu Hr Hs; simpl.
  - auto using games_kept_refl.
  - inversion Hs as [|? ? He Hes]; subst.
    destruct (handle_sound w e Hu Hr He) as (K1 & U1 & R1).
    destruct (IH (handle w e) U1 R1 Hes) as (K2 & U2 & R2).
    split; [eapply games_kept_trans; eassumption | auto].
Qed.

End Sound.

Lemma histories_keep_scores_and_nicks_witness :
  games_kept
    (store (scene.playing 3))
    (store (@history ascii_only game_Board ascii_spaces ann_evening
                     (scene.playing 3))).
Proof.
  destruct (@histories_keep_scores_and_nicks ascii_only game_Board
              ascii_spaces ann_evening (scene.playing 3)) as [H _].
  - repeat constructor. intros [].
  - unfold registry_ok. simpl.
    split; [repeat constructor; intros [] |].
    split; [repeat constructor; intros [] |].
    intros [E|[]]. discriminate E.
  - repeat constructor; discriminate.
  - exact H.
Defined.

(** The end of that history: Ann's record has the score of the win, the
    board of the new game, and Ann has the new nick. *)
Example ann_evening_ends :
  map (fun r => (db.gid r, db.score r))
      (db.games (store (@history ascii_only game_Board ascii_spaces
                                 ann_evening (scene.playing 3))))
  = [(7, 960)]
  /\ db.nicks (store (@history ascii_only game_Board ascii_spaces
                               ann_evening (scene.playing 3)))
     = [(scene.ann, lit "Bob_1")]
  /\ List.length (outbox (@history ascii_only game_Board ascii_spaces
                                   ann_evening (scene.playing 3)))
     = 6%nat.
Proof. vm_compute. repeat split; reflexivity. Qed.
